(** * The expression IR of the decompiler core (db/exp.cpp)

    A shallow embedding of [Exp] and its subclasses, of the value
    protocol (clone, [operator==], [operator<], search and replace), of the
    arithmetic and peephole simplifiers and of the binary serializer,
    followed by the properties of those functions.

    Conventions.
    - An [int] is a [Z] in the range of a 32-bit two's-complement integer;
      every arithmetic result goes through [wrap], every use as
      [unsigned] through [unsigned_of].
    - A [double] is its 64-bit IEEE-754 pattern, compared as the hardware
      compares it ([dbl_eq], [dbl_lt]).
    - An [Exp*] is an [Exp]; an [Exp**] (a pointer to the slot that holds a
      subexpression) is the [path] of that slot from the root.
    - [assert] failures, undefined C++ behaviour and exhausted recursion
      budgets are explicit outcomes of the [result] type. *)

From Stdlib Require Import ZArith List Bool Lia Ascii.
Import ListNotations.
Local Open Scope Z_scope.

(** ** Outcomes of fallible code *)

Inductive result (A : Type) : Type :=
| Ok (a : A)        (* normal return *)
| Abort             (* an assert failed: the program terminates *)
| Undefined         (* the C++ behaviour is undefined (bad cast, trap, ...) *)
| OutOfFuel.        (* the recursion budget of the model is exhausted *)
Arguments Ok {A} a.
Arguments Abort {A}.
Arguments Undefined {A}.
Arguments OutOfFuel {A}.

Definition bind {A B} (r : result A) (k : A -> result B) : result B :=
  match r with
  | Ok a => k a
  | Abort => Abort
  | Undefined => Undefined
  | OutOfFuel => OutOfFuel
  end.

Declare Scope result_scope.
Delimit Scope result_scope with result.
Notation "x <- c ;; k" := (bind c (fun x => k))
  (at level 61, c at next level, right associativity) : result_scope.
Notation "' p <- c ;; k" := (bind c (fun x => match x with p => k end))
  (at level 61, p pattern, c at next level, right associativity) : result_scope.

Definition of_option {A} (o : option A) : result A :=
  match o with Some a => Ok a | None => Undefined end.

(** ** 32-bit integers *)

Module Int32.
Definition min_int : Z := - 2 ^ 31.
Definition max_int : Z := 2 ^ 31 - 1.
Definition in_range (z : Z) : bool := (min_int <=? z) && (z <=? max_int).

(* (int) z : reduction to the 32-bit two's-complement range *)
Definition wrap (z : Z) : Z := (z + 2 ^ 31) mod 2 ^ 32 - 2 ^ 31.
(* (unsigned) z *)
Definition unsigned_of (z : Z) : Z := z mod 2 ^ 32.

Definition neg (k : Z) : Z := wrap (- k).          (* -k *)
Definition not (k : Z) : Z := wrap (Z.lnot k).     (* ~k *)
Definition lnot (k : Z) : Z := if k =? 0 then 1 else 0.   (* !k *)
Definition of_bool (b : bool) : Z := if b then 1 else 0.

(* k1 / k2 and k1 % k2 on int: truncation toward zero; a zero divisor
   and INT_MIN / -1 trap *)
Definition divs (k1 k2 : Z) : result Z :=
  if k2 =? 0 then Undefined
  else if (k1 =? min_int) && (k2 =? -1) then Undefined
  else Ok (Z.quot k1 k2).
Definition mods (k1 k2 : Z) : result Z :=
  if k2 =? 0 then Undefined
  else if (k1 =? min_int) && (k2 =? -1) then Undefined
  else Ok (Z.rem k1 k2).
(* (int) ((unsigned)k1 / (unsigned)k2) and the same with % *)
Definition divu (k1 k2 : Z) : result Z :=
  if unsigned_of k2 =? 0 then Undefined
  else Ok (wrap (unsigned_of k1 / unsigned_of k2)).
Definition modu (k1 k2 : Z) : result Z :=
  if unsigned_of k2 =? 0 then Undefined
  else Ok (wrap (unsigned_of k1 mod unsigned_of k2)).

(* k1 << k2 and k1 >> k2 on int; a count outside 0..31 is undefined,
   >> on a signed operand is the arithmetic shift *)
Definition shl (k1 k2 : Z) : result Z :=
  if (0 <=? k2) && (k2 <? 32) then Ok (wrap (Z.shiftl k1 k2)) else Undefined.
Definition shr (k1 k2 : Z) : result Z :=
  if (0 <=? k2) && (k2 <? 32) then Ok (Z.shiftr k1 k2) else Undefined.
End Int32.

Arguments Int32.wrap : simpl never.
Arguments Int32.unsigned_of : simpl never.

(** ** Doubles, as IEEE-754 binary64 patterns *)

Module Dbl.
Definition sign (d : Z) : Z := (d / 2 ^ 63) mod 2.
Definition expo (d : Z) : Z := (d / 2 ^ 52) mod 2 ^ 11.
Definition frac (d : Z) : Z := d mod 2 ^ 52.
Definition isNaN (d : Z) : bool := (expo d =? 2047) && negb (frac d =? 0).
(* sign-magnitude value of the pattern: monotone in the real value of
   every pattern that is not a NaN, and 0 for both zeros *)
Definition key (d : Z) : Z :=
  if sign d =? 1 then - (d mod 2 ^ 63) else d mod 2 ^ 63.
(* a == b and a < b on double *)
Definition dbl_eq (a b : Z) : bool :=
  negb (isNaN a) && negb (isNaN b) && (key a =? key b).
Definition dbl_lt (a b : Z) : bool :=
  negb (isNaN a) && negb (isNaN b) && (key a <? key b).
End Dbl.

(** ** C strings *)

Definition cstring := list Z.      (* the bytes before the terminating NUL *)

(* strcmp: the sign of the first difference, bytes taken as unsigned char *)
Fixpoint strcmp (a b : cstring) : comparison :=
  match a, b with
  | [], [] => Eq
  | [], _ :: _ => Lt
  | _ :: _, [] => Gt
  | x :: a', y :: b' =>
      match Z.compare x y with
      | Eq => strcmp a' b'
      | c => c
      end
  end.

(** ** The operator catalogue *)

(** Modelled from the spec: the enumeration [OPER] is declared in
    operator.h, which is not among the sources.  An [OPER] is its integer
    value (deserialization casts any [int] to it); [opWild] is -1, as the
    note in [Terminal::appendDotFile] says, and the enumerators that
    exp.cpp names are numbered from 0 in the order below.  Nothing proved
    here depends on the numbering beyond the enumerators being distinct. *)
Definition OPER := Z.

Module Op.
Definition opWild : OPER := -1.
Definition opPlus : OPER := 0.
Definition opMinus : OPER := 1.
Definition opMult : OPER := 2.
Definition opDiv : OPER := 3.
Definition opFPlus : OPER := 4.
Definition opFMinus : OPER := 5.
Definition opFMult : OPER := 6.
Definition opFDiv : OPER := 7.
Definition opMults : OPER := 8.
Definition opDivs : OPER := 9.
Definition opMod : OPER := 10.
Definition opMods : OPER := 11.
Definition opNeg : OPER := 12.
Definition opAnd : OPER := 13.
Definition opOr : OPER := 14.
Definition opEquals : OPER := 15.
Definition opNotEqual : OPER := 16.
Definition opLess : OPER := 17.
Definition opGtr : OPER := 18.
Definition opLessEq : OPER := 19.
Definition opGtrEq : OPER := 20.
Definition opLessUns : OPER := 21.
Definition opGtrUns : OPER := 22.
Definition opLessEqUns : OPER := 23.
Definition opGtrEqUns : OPER := 24.
Definition opNot : OPER := 25.
Definition opLNot : OPER := 26.
Definition opSignExt : OPER := 27.
Definition opBitAnd : OPER := 28.
Definition opBitOr : OPER := 29.
Definition opBitXor : OPER := 30.
Definition opShiftL : OPER := 31.
Definition opShiftR : OPER := 32.
Definition opShiftRA : OPER := 33.
Definition opRotateL : OPER := 34.
Definition opRotateR : OPER := 35.
Definition opRotateLC : OPER := 36.
Definition opRotateRC : OPER := 37.
Definition opExpTable : OPER := 38.
Definition opNameTable : OPER := 39.
Definition opOpTable : OPER := 40.
Definition opSuccessor : OPER := 41.
Definition opTern : OPER := 42.
Definition opAt : OPER := 43.
Definition opRegOf : OPER := 44.
Definition opMemOf : OPER := 45.
Definition opAddrOf : OPER := 46.
Definition opVar : OPER := 47.
Definition opParam : OPER := 48.
Definition opLocal : OPER := 49.
Definition opTemp : OPER := 50.
Definition opSize : OPER := 51.
Definition opTruncu : OPER := 52.
Definition opTruncs : OPER := 53.
Definition opZfill : OPER := 54.
Definition opSgnEx : OPER := 55.
Definition opFsize : OPER := 56.
Definition opItof : OPER := 57.
Definition opFtoi : OPER := 58.
Definition opFround : OPER := 59.
Definition opMachFtr : OPER := 60.
Definition opSqrt : OPER := 61.
Definition opSin : OPER := 62.
Definition opCos : OPER := 63.
Definition opTan : OPER := 64.
Definition opArcTan : OPER := 65.
Definition opLog2 : OPER := 66.
Definition opLog10 : OPER := 67.
Definition opLoge : OPER := 68.
Definition opSQRTs : OPER := 69.
Definition opSQRTd : OPER := 70.
Definition opSQRTq : OPER := 71.
Definition opExecute : OPER := 72.
Definition opPhi : OPER := 73.
Definition opSubscript : OPER := 74.
Definition opGuard : OPER := 75.
Definition opFlagCall : OPER := 76.
Definition opFlagDef : OPER := 77.
Definition opList : OPER := 78.
Definition opTypedExp : OPER := 79.
Definition opAssignExp : OPER := 80.
Definition opIntConst : OPER := 81.
Definition opFltConst : OPER := 82.
Definition opStrConst : OPER := 83.
Definition opCodeAddr : OPER := 84.
Definition opPC : OPER := 85.
Definition opFlags : OPER := 86.
Definition opCF : OPER := 87.
Definition opZF : OPER := 88.
Definition opOF : OPER := 89.
Definition opNF : OPER := 90.
Definition opAFP : OPER := 91.
Definition opAGP : OPER := 92.
Definition opAnull : OPER := 93.
Definition opFpush : OPER := 94.
Definition opFpop : OPER := 95.
Definition opNil : OPER := 96.
End Op.
Export Op.

(** ** The stream and the external collaborators *)

Definition stream := list Z.       (* the bytes still to be read *)

(** Modelled from the spec: the stream helpers of util.h ([saveValue],
    [loadValue], [saveString], [loadString], [saveFID], [loadFID],
    [saveLen], [loadLen]) and the constant [FID_EXP_END] are not among the
    sources.  §4.4 fixes what they carry (a tag byte, an int, a double, a
    length-prefixed string, the end-of-node marker and its length); their
    byte layout is a parameter.  A load answers [None] when the stream
    does not hold a value of the kind asked for. *)
Class Util : Type := {
  saveChar : Z -> stream;        loadChar : stream -> option (Z * stream);
  saveInt : Z -> stream;         loadInt : stream -> option (Z * stream);
  saveDouble : Z -> stream;      loadDouble : stream -> option (Z * stream);
  saveString : cstring -> stream; loadString : stream -> option (cstring * stream);
  saveFID : Z -> stream;         loadFID : stream -> option (Z * stream);
  saveLen : Z -> stream;         loadLen : stream -> option (Z * stream);
  FID_EXP_END : Z
}.

(** Modelled from the spec: the class [Type] that exp.cpp uses (with
    [serialize] and a static [deserialize]) is not among the sources; §1
    and §6 make it an opaque handle with equality, order, size and
    serialization. *)
Class TypeOps (T : Type) : Type := {
  type_ne : T -> T -> bool;               (* Type::operator!= *)
  type_lt : T -> T -> bool;               (* Type::operator<  *)
  type_getSize : T -> Z;                  (* Type::getSize    *)
  type_serialize : T -> stream;
  type_deserialize : stream -> option (T * stream)
}.

(** Modelled from the spec: the class [RTL] is not among the sources; a
    [FlagDef] owns one and only serializes it. *)
Class RTLOps (R : Type) : Type := {
  rtl_serialize : R -> stream;
  rtl_deserialize : stream -> option (R * stream)
}.

(** ** The expression tree *)

Section Expressions.
Context {T R : Type}.

(* the union u of a Const together with the op that selects its member;
   Const(ADDRESS) stores the address as an opIntConst *)
Inductive cval : Type :=
| CInt (i : Z)            (* op = opIntConst, u.i *)
| CFlt (d : Z)            (* op = opFltConst, u.d *)
| CStr (p : cstring).     (* op = opStrConst, u.p *)

Inductive Exp : Type :=
| Const (u : cval)
| Terminal (op : OPER)
| Unary (op : OPER) (subExp1 : Exp)
| Binary (op : OPER) (subExp1 subExp2 : Exp)
| Ternary (op : OPER) (subExp1 subExp2 subExp3 : Exp)
| TypedExp (type : T) (subExp1 : Exp)               (* op = opTypedExp *)
| AssignExp (size : Z) (subExp1 subExp2 : Exp)      (* op = opAssignExp *)
| FlagDef (subExp1 : Exp) (rtl : R).                (* op = opFlagDef *)

Definition constOp (u : cval) : OPER :=
  match u with
  | CInt _ => opIntConst
  | CFlt _ => opFltConst
  | CStr _ => opStrConst
  end.

Definition getOper (e : Exp) : OPER :=
  match e with
  | Const u => constOp u
  | Terminal op | Unary op _ | Binary op _ _ | Ternary op _ _ _ => op
  | TypedExp _ _ => opTypedExp
  | AssignExp _ _ _ => opAssignExp
  | FlagDef _ _ => opFlagDef
  end.

(* setOper is only ever applied to a node whose op is one of opEquals,
   opNotEqual, opMinus or opShiftL, hence to no Const, TypedExp, AssignExp
   or FlagDef; on those the answer is None *)
Definition setOper (op : OPER) (e : Exp) : option Exp :=
  match e with
  | Terminal _ => Some (Terminal op)
  | Unary _ a => Some (Unary op a)
  | Binary _ a b => Some (Binary op a b)
  | Ternary _ a b c => Some (Ternary op a b c)
  | _ => None
  end.

(* The accessors read the member through a cast to Unary, Binary or
   Ternary; that is defined exactly when the object derives from the
   class, and None otherwise. *)
Definition getSubExp1 (e : Exp) : option Exp :=
  match e with
  | Unary _ a | Binary _ a _ | Ternary _ a _ _
  | TypedExp _ a | AssignExp _ a _ | FlagDef a _ => Some a
  | _ => None
  end.

Definition getSubExp2 (e : Exp) : option Exp :=
  match e with
  | Binary _ _ b | Ternary _ _ b _ | AssignExp _ _ b => Some b
  | _ => None
  end.

Definition getSubExp3 (e : Exp) : option Exp :=
  match e with
  | Ternary _ _ _ c => Some c
  | _ => None
  end.

Definition getType (e : Exp) : option T :=
  match e with
  | TypedExp ty _ => Some ty
  | _ => None
  end.

Definition getSize (e : Exp) : option Z :=
  match e with
  | AssignExp sz _ _ => Some sz
  | _ => None
  end.

(* ((Const* )e)->getInt().  polySimplify also reaches it through a stale
   opSub2 on a node that is no Const; there the value read is garbage that
   the enclosing condition never lets through (it is conjoined with a
   test on opSub1 that is false on that path), and the model reads 0. *)
Definition getInt (e : Exp) : Z :=
  match e with
  | Const (CInt i) => i
  | _ => 0
  end.

Definition setInt (k : Z) (e : Exp) : option Exp :=
  match e with
  | Const (CInt _) => Some (Const (CInt k))
  | _ => None
  end.

Definition setSubExp1 (a : Exp) (e : Exp) : option Exp :=
  match e with
  | Unary op _ => Some (Unary op a)
  | Binary op _ b => Some (Binary op a b)
  | Ternary op _ b c => Some (Ternary op a b c)
  | TypedExp ty _ => Some (TypedExp ty a)
  | AssignExp sz _ b => Some (AssignExp sz a b)
  | FlagDef _ r => Some (FlagDef a r)
  | _ => None
  end.

Definition setSubExp2 (b : Exp) (e : Exp) : option Exp :=
  match e with
  | Binary op a _ => Some (Binary op a b)
  | Ternary op a _ c => Some (Ternary op a b c)
  | AssignExp sz a _ => Some (AssignExp sz a b)
  | _ => None
  end.

Definition setSubExp3 (c : Exp) (e : Exp) : option Exp :=
  match e with
  | Ternary op a b _ => Some (Ternary op a b c)
  | _ => None
  end.

Fixpoint size_of (e : Exp) : nat :=
  match e with
  | Const _ | Terminal _ => 1
  | Unary _ a | TypedExp _ a | FlagDef a _ => S (size_of a)
  | Binary _ a b | AssignExp _ a b => S (size_of a + size_of b)
  | Ternary _ a b c => S (size_of a + size_of b + size_of c)
  end.

Fixpoint depth (e : Exp) : nat :=
  match e with
  | Const _ | Terminal _ => 0
  | Unary _ a | TypedExp _ a | FlagDef a _ => S (depth a)
  | Binary _ a b | AssignExp _ a b => S (Nat.max (depth a) (depth b))
  | Ternary _ a b c => S (Nat.max (depth a) (Nat.max (depth b) (depth c)))
  end.

(** *** clone *)

(* FlagDef has no clone of its own in exp.cpp: it inherits Unary::clone,
   which builds a plain Unary with the same op *)
Fixpoint clone (e : Exp) : Exp :=
  match e with
  | Const u => Const u
  | Terminal op => Terminal op
  | Unary op a => Unary op (clone a)
  | Binary op a b => Binary op (clone a) (clone b)
  | Ternary op a b c => Ternary op (clone a) (clone b) (clone c)
  | TypedExp ty a => TypedExp ty (clone a)
  | AssignExp sz a b => AssignExp sz (clone a) (clone b)
  | FlagDef a _ => Unary opFlagDef (clone a)
  end.

(** *** operator== *)

Context {TO : TypeOps T}.

(* The method is chosen by the class of the left operand; the right
   operand is cast to that class.  When it has the same op but is not of
   the class (which the arity invariant of the data model excludes) the
   cast is undefined and the model answers false. *)
Fixpoint equals (x o : Exp) {struct x} : bool :=
  match x with
  | Const u =>
      if constOp u =? opWild then true
      else if getOper o =? opWild then true
      else if negb (constOp u =? getOper o) then false
      else match u, o with
           | CInt i, Const (CInt j) => i =? j
           | CFlt d, Const (CFlt d') => Dbl.dbl_eq d d'
           | CStr p, Const (CStr q) =>
               match strcmp p q with Eq => true | _ => false end
           | _, _ => false
           end
  | Terminal op =>
      (op =? opWild) || (getOper o =? opWild) || (op =? getOper o)
  | Unary op a =>
      if op =? opWild then true
      else if getOper o =? opWild then true
      else if negb (op =? getOper o) then false
      else match getSubExp1 o with
           | Some a' => equals a a'
           | None => false
           end
  | FlagDef a _ =>                       (* Unary::operator== *)
      if getOper o =? opWild then true
      else if negb (opFlagDef =? getOper o) then false
      else match getSubExp1 o with
           | Some a' => equals a a'
           | None => false
           end
  | Binary op a b =>
      if op =? opWild then true
      else if getOper o =? opWild then true
      else if negb (op =? getOper o) then false
      else match getSubExp1 o, getSubExp2 o with
           | Some a', Some b' =>
               if negb (equals a a') then false else equals b b'
           | _, _ => false
           end
  | Ternary op a b c =>
      if op =? opWild then true
      else if getOper o =? opWild then true
      else if negb (op =? getOper o) then false
      else match getSubExp1 o, getSubExp2 o, getSubExp3 o with
           | Some a', Some b', Some c' =>
               if negb (equals a a') then false
               else if negb (equals b b') then false
               else equals c c'
           | _, _, _ => false
           end
  | TypedExp ty a =>
      if getOper o =? opWild then true
      else if negb (getOper o =? opTypedExp) then false
      else match getType o, getSubExp1 o with
           | Some ty', Some a' =>
               if type_ne ty ty' then false else equals a a'
           | _, _ => false
           end
  | AssignExp sz a b =>
      if getOper o =? opWild then true
      else if negb (getOper o =? opAssignExp) then false
      else match getSize o, getSubExp1 o, getSubExp2 o with
           | Some sz', Some a', Some b' =>
               if negb (sz =? sz') then false
               else equals a a' && equals b b'
           | _, _, _ => false
           end
  end.

(** *** operator< *)

(* Binary::operator< also calls the operator of the other operand's child,
   so the recursion is on both trees; the budget n bounds its depth and
   [less] supplies the sum of the two sizes, which it never exhausts.  A
   member of the other operand is read where the source reads it, after
   the tests before it have failed to decide; a member that the other
   operand's class lacks answers false. *)
Fixpoint lessF (n : nat) (x o : Exp) {struct n} : bool :=
  match n with
  | O => false
  | S n' =>
    match x with
    | Const u =>
        if constOp u <? getOper o then true
        else if constOp u >? getOper o then false
        else match u, o with
             | CInt i, Const (CInt j) => i <? j
             | CFlt d, Const (CFlt d') => Dbl.dbl_lt d d'
             | CStr p, Const (CStr q) =>
                 match strcmp p q with Lt => true | _ => false end
             | _, _ => false
             end
    | Terminal op => op <? getOper o
    | Unary op a =>
        if op <? getOper o then true
        else if op >? getOper o then false
        else match getSubExp1 o with
             | Some a' => lessF n' a a'
             | None => false
             end
    | FlagDef a _ =>                     (* Unary::operator< *)
        if opFlagDef <? getOper o then true
        else if opFlagDef >? getOper o then false
        else match getSubExp1 o with
             | Some a' => lessF n' a a'
             | None => false
             end
    | Binary op a b =>
        if op <? getOper o then true
        else if op >? getOper o then false
        else match getSubExp1 o with
             | Some a' =>
                 if lessF n' a a' then true
                 else if lessF n' a' a then false
                 else match getSubExp2 o with
                      | Some b' => lessF n' b b'
                      | None => false
                      end
             | None => false
             end
    | Ternary op a b c =>
        if op <? getOper o then true
        else if op >? getOper o then false
        else match getSubExp1 o with
             | Some a' =>
                 if lessF n' a a' then true
                 else if lessF n' a' a then false
                 else match getSubExp3 o with
                      | Some c' => lessF n' c c'
                      | None => false
                      end
             | None => false
             end
    | TypedExp ty a =>
        if opTypedExp <? getOper o then true
        else if opTypedExp >? getOper o then false
        else match getType o with
             | Some ty' =>
                 if type_lt ty ty' then true
                 else if type_lt ty' ty then false
                 else match getSubExp1 o with
                      | Some a' => lessF n' a a'
                      | None => false
                      end
             | None => false
             end
    | AssignExp sz a b =>
        if opAssignExp <? getOper o then true
        else if opAssignExp >? getOper o then false
        else match getSize o with
             | Some sz' =>
                 if sz <? sz' then true
                 else if sz' <? sz then false
                 else match getSubExp1 o with
                      | Some a' =>
                          if lessF n' a a' then true
                          else match getSubExp2 o with
                               | Some b' => lessF n' b b'
                               | None => false
                               end
                      | None => false
                      end
             | None => false
             end
    end
  end.

Definition less (x o : Exp) : bool := lessF (size_of x + size_of o) x o.

End Expressions.
Arguments cval : clear implicits.
Arguments Exp : clear implicits.

(** ** Search and replace *)

Section Search.
Context {T R : Type} {TO : TypeOps T}.

(* An Exp** is the slot that holds a subexpression: the slot of the root
   (the local variable top) is the empty path, the member subExp<i> of the
   node held by slot p is p ++ [i]. *)
Definition path := list nat.

Definition child (i : nat) (e : Exp T R) : option (Exp T R) :=
  match i with
  | 1%nat => getSubExp1 e
  | 2%nat => getSubExp2 e
  | 3%nat => getSubExp3 e
  | _ => None
  end.

(* *pp *)
Fixpoint subExpAt (pp : path) (e : Exp T R) : option (Exp T R) :=
  match pp with
  | [] => Some e
  | i :: pp' =>
      match child i e with
      | Some c => subExpAt pp' c
      | None => None
      end
  end.

Definition setChild (i : nat) (c : Exp T R) (e : Exp T R) : option (Exp T R) :=
  match i with
  | 1%nat => setSubExp1 c e
  | 2%nat => setSubExp2 c e
  | 3%nat => setSubExp3 c e
  | _ => None
  end.

(* *pp = r : the tree with the content of slot pp overwritten; a slot
   that is not in the tree leaves it as it is *)
Fixpoint assignAt (pp : path) (r : Exp T R) (e : Exp T R) : Exp T R :=
  match pp with
  | [] => r
  | i :: pp' =>
      match child i e with
      | Some c =>
          match setChild i (assignAt pp' r c) e with
          | Some e' => e'
          | None => e
          end
      | None => e
      end
  end.

Definition nonempty {A} (l : list A) : bool :=
  match l with [] => false | _ => true end.

(* Exp::doSearch with the doSearchChildren of each class; here is the
   slot that holds pSrc, li the list built so far *)
Fixpoint doSearch (search pSrc : Exp T R) (here : path) (li : list path)
    (once : bool) {struct pSrc} : list path :=
  let compare := equals search pSrc in
  let li := if compare then li ++ [here] else li in
  if compare && once then li
  else
    match pSrc with
    | Const _ | Terminal _ => li
    | Unary _ a | TypedExp _ a | FlagDef a _ =>
        doSearch search a (here ++ [1%nat]) li once
    | Binary _ a b =>
        let li := doSearch search a (here ++ [1%nat]) li once in
        if once && nonempty li then li
        else doSearch search b (here ++ [2%nat]) li once
    | Ternary _ a b c =>
        let li := doSearch search a (here ++ [1%nat]) li once in
        if once && nonempty li then li
        else
          let li := doSearch search b (here ++ [2%nat]) li once in
          if once && nonempty li then li
          else doSearch search c (here ++ [3%nat]) li once
    | AssignExp _ a b =>
        let li := doSearch search a (here ++ [1%nat]) li once in
        doSearch search b (here ++ [2%nat]) li once
    end.

(* Exp::search: the returned bool and the out-parameter result, None for
   the null pointer *)
Definition search (srch : Exp T R) (this : Exp T R) : bool * option (Exp T R) :=
  let result := @None (Exp T R) in
  let li := doSearch srch this [] [] false in
  match li with
  | front :: _ => (true, subExpAt front this)
  | [] => (false, result)
  end.

Definition searchAll (srch : Exp T R) (this : Exp T R) : bool * list (Exp T R) :=
  let li := doSearch srch this [] [] false in
  (nonempty li,
   flat_map (fun pp => match subExpAt pp this with
                       | Some e => [e] | None => [] end) li).

Fixpoint is_prefix (p q : path) : bool :=
  match p, q with
  | [], _ => true
  | i :: p', j :: q' => Nat.eqb i j && is_prefix p' q'
  | _ :: _, [] => false
  end.

(* the loop of searchReplaceAll over li.  A slot below a slot that an
   earlier iteration overwrote lies in a deleted node ("a replacement
   will be made to something that is already deleted"): undefined. *)
Fixpoint replaceLoop (li done : list path) (replace : Exp T R) (once : bool)
    (size_nonzero : bool) (top : Exp T R) : result (Exp T R * bool) :=
  match li with
  | [] => Ok (top, size_nonzero)
  | pp :: li' =>
      if existsb (fun d => is_prefix d pp) done then Undefined
      else
        let top := assignAt pp (clone replace) top in
        if once then Ok (top, true)
        else replaceLoop li' (pp :: done) replace once size_nonzero top
  end.

(* Exp::searchReplaceAll: the returned top and the out-parameter change *)
Definition searchReplaceAll (srch replace : Exp T R) (once : bool) (this : Exp T R)
    : result (Exp T R * bool) :=
  let li := doSearch srch this [] [] false in
  replaceLoop li [] replace once (nonempty li) this.

Definition searchReplace (srch replace : Exp T R) (this : Exp T R)
    : result (Exp T R * bool) :=
  searchReplaceAll srch replace true this.

(** *** fixSuccessor *)

(* static Unary succRegOf(opSuccessor, new Unary(opRegOf, new Terminal(opWild))) *)
Definition succRegOf : Exp T R :=
  Unary opSuccessor (Unary opRegOf (Terminal opWild)).

Definition fixSuccessor (this : Exp T R) : result (Exp T R) :=
  match search succRegOf this with
  | (true, Some result) =>
      (sub1 <- of_option (getSubExp1 result) ;;
       if negb (getOper sub1 =? opRegOf) then Abort else
       sub2 <- of_option (getSubExp1 sub1) ;;
       if negb (getOper sub2 =? opIntConst) then Abort else
       let replace := clone sub1 in
       c <- of_option (getSubExp1 replace) ;;
       c' <- of_option (setInt (Int32.wrap (getInt c + 1)) c) ;;
       replace' <- of_option (setSubExp1 c' replace) ;;
       ' (res, _) <- searchReplace result replace' this ;;
       Ok res)%result
  | (true, None) => Undefined
  | (false, _) => Ok this
  end.

End Search.

(** ** Arithmetic normalization *)

Section Simplify.
Context {T R : Type} {TO : TypeOps T}.

(* the three containers that partitionTerms fills *)
Record partition : Type := mkPartition {
  positives : list (Exp T R);
  negatives : list (Exp T R);
  integers : list Z
}.

Definition empty_partition : partition := mkPartition [] [] [].

(* Exp::partitionTerms.  The switch is on the op alone and the children
   are read through a cast to Binary; the read of subExp1 is defined on
   every class that has the member, that of subExp2 on Binary and its
   subclasses. *)
Fixpoint partitionTerms (this : Exp T R) (negate : bool) (acc : partition)
    {struct this} : result partition :=
  let op := getOper this in
  if op =? opPlus then
    match this with
    | Binary _ p1 p2 | Ternary _ p1 p2 _ | AssignExp _ p1 p2 =>
        (acc <- partitionTerms p1 negate acc ;;
         partitionTerms p2 negate acc)%result
    | _ => Undefined
    end
  else if op =? opMinus then
    match this with
    | Binary _ p1 p2 | Ternary _ p1 p2 _ | AssignExp _ p1 p2 =>
        (acc <- partitionTerms p1 negate acc ;;
         partitionTerms p2 (negb negate) acc)%result
    | _ => Undefined
    end
  else if op =? opTypedExp then
    match this with
    | Unary _ p1 | Binary _ p1 _ | Ternary _ p1 _ _
    | TypedExp _ p1 | AssignExp _ p1 _ | FlagDef p1 _ =>
        partitionTerms p1 negate acc
    | _ => Undefined
    end
  else if op =? opAssignExp then
    (* p1 = getSubExp1(); p2 = getSubExp1(); *)
    match this with
    | Unary _ p1 | Binary _ p1 _ | Ternary _ p1 _ _
    | TypedExp _ p1 | AssignExp _ p1 _ | FlagDef p1 _ =>
        let p2 := p1 in
        (acc <- partitionTerms p1 negate acc ;;
         partitionTerms p2 negate acc)%result
    | _ => Undefined
    end
  else if op =? opIntConst then
    match this with
    | Const (CInt k) =>
        if negate
        then Ok (mkPartition (positives acc) (negatives acc)
                             (integers acc ++ [Int32.neg k]))
        else Ok (mkPartition (positives acc) (negatives acc)
                             (integers acc ++ [k]))
    | _ => Undefined
    end
  else
    if negate
    then Ok (mkPartition (positives acc) (negatives acc ++ [this]) (integers acc))
    else Ok (mkPartition (positives acc ++ [this]) (negatives acc) (integers acc)).

(* Exp::Accumulate *)
Fixpoint Accumulate (exprs : list (Exp T R)) : Exp T R :=
  match exprs with
  | [] => Const (CInt 0)
  | [e] => clone e
  | e :: rest => Binary opPlus (clone e) (Accumulate rest)
  end.

(* the inner while of the cancelling loop: advance nn to the first
   negative equal to *pp; skipped are the negatives it steps over *)
Fixpoint scan (p : Exp T R) (skipped nn : list (Exp T R))
    : option (list (Exp T R) * list (Exp T R)) :=
  match nn with
  | [] => None
  | n :: nn' =>
      if equals p n then Some (skipped, nn')
      else scan p (skipped ++ [n]) nn'
  end.

(* the outer while: pp walks the positives, kept are those already
   passed, before the negatives in front of nn.  nn is never reset: once
   a scan reaches the end it stays there. *)
Fixpoint cancel (pp kept before nn : list (Exp T R))
    : list (Exp T R) * list (Exp T R) :=
  match pp with
  | [] => (kept, before ++ nn)
  | p :: pp' =>
      match scan p [] nn with
      | Some (skipped, nn') => cancel pp' kept (before ++ skipped) nn'
      | None => cancel pp' (kept ++ [p]) (before ++ nn) []
      end
  end.

(* the part of Binary::simplifyArith that follows the opPlus/opMinus test *)
Definition simplifyArith_sum (this : Exp T R) : result (Exp T R) :=
  (part <- partitionTerms this false empty_partition ;;
   let '(positives, negatives) := cancel (positives part) [] [] (negatives part) in
   let sum := fold_left (fun a k => Int32.wrap (a + k)) (integers part) 0 in
   match positives, negatives with
   | [], [] => Ok (Const (CInt sum))
   | [], _ :: _ =>
       Ok (Binary opMinus (Const (CInt sum)) (Accumulate negatives))
   | _ :: _, [] =>
       if sum =? 0 then Ok (Accumulate positives)
       else Ok (Binary opPlus (Accumulate positives) (Const (CInt sum)))
   | _ :: _, _ :: _ =>
       if sum =? 0
       then Ok (Binary opMinus (Accumulate positives) (Accumulate negatives))
       else Ok (Binary opPlus
                  (Binary opMinus (Accumulate positives) (Accumulate negatives))
                  (Const (CInt sum)))
   end)%result.

(** Modelled from the spec: the default [Exp::simplifyArith] of exp.h,
    which Const and Terminal inherit, is not among the sources; by §4.3.1
    it leaves such shapes unchanged.  TypedExp and FlagDef inherit
    [Unary::simplifyArith], Ternary inherits [Binary::simplifyArith]. *)
Fixpoint simplifyArith (this : Exp T R) : result (Exp T R) :=
  match this with
  | Const _ | Terminal _ => Ok this
  | Unary op a =>
      if (op =? opMemOf) || (op =? opRegOf)
      then (a' <- simplifyArith a ;; Ok (Unary op a'))%result
      else Ok this
  | TypedExp _ _ | FlagDef _ _ => Ok this
  | AssignExp sz a b =>
      (a' <- simplifyArith a ;;
       b' <- simplifyArith b ;;
       Ok (AssignExp sz a' b'))%result
  | Binary op a b =>
      if negb (op =? opPlus) && negb (op =? opMinus)
      then (a' <- simplifyArith a ;;
            b' <- simplifyArith b ;;
            Ok (Binary op a' b'))%result
      else simplifyArith_sum this
  | Ternary op a b c =>
      if negb (op =? opPlus) && negb (op =? opMinus)
      then (a' <- simplifyArith a ;;
            b' <- simplifyArith b ;;
            Ok (Ternary op a' b' c))%result
      else simplifyArith_sum this
  end.

End Simplify.

(** ** The peephole simplifier *)

Section Peephole.
Context {T R : Type} {TO : TypeOps T}.
Import Int32.

(* the switch on op over two integer constants: None is the default
   label (change = false).  The labels opDiv and opMod have no break:
   control runs on into opDivs and opMods. *)
Definition foldConst (op : OPER) (k1 k2 : Z) : result (option Z) :=
  (if op =? opPlus then Ok (Some (wrap (k1 + k2)))
   else if op =? opMinus then Ok (Some (wrap (k1 - k2)))
   else if op =? opDiv then
     k1 <- divu k1 k2 ;;
     k1 <- divs k1 k2 ;;
     Ok (Some k1)
   else if op =? opDivs then
     k1 <- divs k1 k2 ;;
     Ok (Some k1)
   else if op =? opMod then
     k1 <- modu k1 k2 ;;
     k1 <- mods k1 k2 ;;
     Ok (Some k1)
   else if op =? opMods then
     k1 <- mods k1 k2 ;;
     Ok (Some k1)
   else if op =? opMult then
     Ok (Some (wrap (unsigned_of k1 * unsigned_of k2)))
   else if op =? opMults then Ok (Some (wrap (k1 * k2)))
   else if op =? opShiftL then
     k1 <- shl k1 k2 ;;
     Ok (Some k1)
   else if op =? opShiftR then
     k1 <- shr k1 k2 ;;
     Ok (Some k1)
   else if op =? opShiftRA then
     a <- shr k1 k2 ;;
     b <- shl 1 k2 ;;
     c <- shl (wrap (b - 1)) (32 - k2) ;;
     Ok (Some (Z.lor a c))
   else if op =? opBitOr then Ok (Some (Z.lor k1 k2))
   else if op =? opBitAnd then Ok (Some (Z.land k1 k2))
   else if op =? opBitXor then Ok (Some (Z.lxor k1 k2))
   else if op =? opAnd then
     Ok (Some (of_bool (negb (k1 =? 0) && negb (k2 =? 0))))
   else if op =? opOr then
     Ok (Some (of_bool (negb (k1 =? 0) || negb (k2 =? 0))))
   else if op =? opEquals then Ok (Some (of_bool (k1 =? k2)))
   else if op =? opNotEqual then Ok (Some (of_bool (negb (k1 =? k2))))
   else if op =? opLess then Ok (Some (of_bool (k1 <? k2)))
   else if op =? opGtr then Ok (Some (of_bool (k1 >? k2)))
   else if op =? opLessEq then Ok (Some (of_bool (k1 <=? k2)))
   else if op =? opGtrEq then Ok (Some (of_bool (k1 >=? k2)))
   else if op =? opLessUns then
     Ok (Some (of_bool (unsigned_of k1 <? unsigned_of k2)))
   else if op =? opGtrUns then
     Ok (Some (of_bool (unsigned_of k1 >? unsigned_of k2)))
   else if op =? opLessEqUns then
     Ok (Some (of_bool (unsigned_of k1 <=? unsigned_of k2)))
   else if op =? opGtrEqUns then
     Ok (Some (of_bool (unsigned_of k1 >=? unsigned_of k2)))
   else Ok None)%result.

(** Modelled from the spec: [Exp::isComparison] is defined in exp.h, which
    is not among the sources; the comparisons are the ten signed and
    unsigned relational operators of §4.3.2. *)
Definition isComparison (op : OPER) : bool :=
  (op =? opEquals) || (op =? opNotEqual)
  || (op =? opGtr) || (op =? opLess) || (op =? opGtrUns) || (op =? opLessUns)
  || (op =? opGtrEq) || (op =? opLessEq)
  || (op =? opGtrEqUns) || (op =? opLessEqUns).

(* b->subExp1 and b->subExp2 of a node cast to Binary *)
Definition asBinary (e : Exp T R) : result (Exp T R * Exp T R) :=
  match getSubExp1 e, getSubExp2 e with
  | Some a, Some b => Ok (a, b)
  | _, _ => Undefined
  end.

(* c->setInt(f(c->getInt())) on the second child of e *)
Definition updInt2 (f : Z -> Z) (e : Exp T R) : result (Exp T R) :=
  (' (_, c) <- asBinary e ;;
   c' <- of_option (setInt (f (getInt c)) c) ;;
   of_option (setSubExp2 c' e))%result.

Definition is0 (opSub : OPER) (e : Exp T R) : bool :=
  (opSub =? opIntConst) && (getInt e =? 0).

Section Bodies.
(* the virtual polySimplify, bMod passed in and out *)
Variable polySimplify : Exp T R -> bool -> result (Exp T R * bool).

(* Unary::polySimplify on an object whose class is Unary *)
Definition Unary_polySimplify (op : OPER) (subExp1 : Exp T R) (bMod : bool)
    : result (Exp T R * bool) :=
  (' (subExp1, bMod) <- polySimplify subExp1 bMod ;;
   if (op =? opNeg) || (op =? opNot) || (op =? opLNot) || (op =? opSize) then
     let subOP := getOper subExp1 in
     if subOP =? opIntConst then
       let op2 := op in
       let res := subExp1 in
       let k := getInt res in
       let k := if op2 =? opNeg then neg k
                else if op2 =? opNot then not k
                else if op2 =? opLNot then lnot k
                else k in
       res <- of_option (setInt k res) ;;
       Ok (res, true)
     else if ((op =? opNot) || (op =? opLNot)) && (subOP =? opEquals) then
       res <- of_option (setOper opNotEqual subExp1) ;;
       Ok (res, true)
     else if op =? subOP then
       res <- of_option (getSubExp1 subExp1) ;;
       Ok (res, true)
     else Ok (Unary op subExp1, bMod)
   else if op =? opAddrOf then
     if getOper subExp1 =? opMemOf then
       res <- of_option (getSubExp1 subExp1) ;;
       Ok (res, true)
     else Ok (Unary op subExp1, bMod)
   else if (op =? opMemOf) || (op =? opRegOf) then
     ' (subExp1, bMod) <- polySimplify subExp1 bMod ;;
     subExp1 <- simplifyArith subExp1 ;;
     Ok (Unary op subExp1, bMod)
   else Ok (Unary op subExp1, bMod))%result.

(* Binary::polySimplify.  op, subExp1, subExp2, opSub1 and opSub2 are
   rebound where the source assigns them; opSub1 and opSub2 are the
   locals of the source and go stale exactly where it lets them. *)
Definition Binary_polySimplify (op : OPER) (subExp1 subExp2 : Exp T R)
    (bMod : bool) : result (Exp T R * bool) :=
  (' (subExp1, bMod) <- polySimplify subExp1 bMod ;;
   ' (subExp2, bMod) <- polySimplify subExp2 bMod ;;
   let opSub1 := getOper subExp1 in
   let opSub2 := getOper subExp2 in
   folded <- (if (opSub1 =? opIntConst) && (opSub2 =? opIntConst)
              then foldConst op (getInt subExp1) (getInt subExp2)
              else Ok None) ;;
   match folded with
   | Some k1 => Ok (Const (CInt k1), true)
   | None =>
   if ((op =? opBitXor) || (op =? opMinus)) && equals subExp1 subExp2 then
     Ok (Const (CInt 0), true)
   else
   (* turn a - b into a + -b; doesn't count as a change *)
   let '(op, subExp2, opSub2) :=
     if op =? opMinus then (opPlus, Unary opNeg subExp2, opNeg)
     else (op, subExp2, opSub2) in
   (* commute to put an integer constant on the RHS; not a modification *)
   let '(subExp1, subExp2, opSub1, opSub2) :=
     if (opSub1 =? opIntConst) && ((op =? opPlus) || (op =? opMult))
     then (subExp2, subExp1, opSub2, opSub1)
     else (subExp1, subExp2, opSub1, opSub2) in
   (* exp + 0, exp - 0, exp | 0, exp OR 0 *)
   if ((op =? opPlus) || (op =? opMinus) || (op =? opBitOr) || (op =? opOr))
      && is0 opSub2 subExp2 then Ok (subExp1, true)
   (* exp * 0, exp & 0, exp AND 0 *)
   else if ((op =? opMult) || (op =? opMults) || (op =? opBitAnd) || (op =? opAnd))
      && is0 opSub2 subExp2 then Ok (Const (CInt 0), true)
   (* exp * 1 *)
   else if ((op =? opMult) || (op =? opMults))
      && (opSub2 =? opIntConst) && (getInt subExp2 =? 1) then Ok (subExp1, true)
   (* exp AND -1 (bitwise) *)
   else if (op =? opBitAnd)
      && (opSub2 =? opIntConst) && (getInt subExp2 =? -1) then Ok (subExp1, true)
   (* exp AND TRUE (logical) *)
   else if (op =? opAnd)
      && (opSub2 =? opIntConst) && negb (getInt subExp2 =? 0) then Ok (subExp1, true)
   (* x - 4 to x + -4 *)
   else if (op =? opMinus) && (opSub2 =? opIntConst) then
     subExp2 <- of_option (setInt (neg (getInt subExp2)) subExp2) ;;
     Ok (Binary opPlus subExp1 subExp2, true)
   (* exp << k *)
   else if (op =? opShiftL) && (opSub2 =? opIntConst)
      && (getInt subExp2 >=? 0) && (getInt subExp2 <? 32) then
     k <- shl 1 (getInt subExp2) ;;
     subExp2 <- of_option (setInt k subExp2) ;;
     Ok (Binary opMult subExp1 subExp2, true)
   else
   (* -x compare y becomes x compare -y; doesn't count as a change, and
      opSub1, opSub2 keep their old values *)
   sides <- (if isComparison op && (opSub1 =? opNeg)
             then e1 <- of_option (getSubExp1 subExp1) ;;
                  Ok (clone e1, Unary opNeg subExp2)
             else Ok (subExp1, subExp2)) ;;
   let '(subExp1, subExp2) := sides in
   (* (x + y) compare 0 becomes x compare -y *)
   if isComparison op && is0 opSub2 subExp2 && (opSub1 =? opPlus) then
     ' (x, y) <- asBinary subExp1 ;;
     Ok (Binary op x (Unary opNeg y), true)
   (* (x == y) == 1 becomes x == y *)
   else if (op =? opEquals) && (opSub2 =? opIntConst)
      && (getInt subExp2 =? 1) && (opSub1 =? opEquals) then
     ' (x, y) <- asBinary subExp1 ;;
     Ok (Binary op x y, true)
   else
   (* x + -y == 0 becomes x == y *)
   early <- (if (op =? opEquals) && is0 opSub2 subExp2 && (opSub1 =? opPlus)
             then ' (x, y) <- asBinary subExp1 ;;
                  if getOper y =? opIntConst then
                    let n := getInt y in
                    if n <? 0 then
                      y' <- of_option (setInt (neg (getInt y)) y) ;;
                      Ok (Some (Binary op x y', true))
                    else Ok None
                  else Ok None
             else Ok None) ;;
   match early with
   | Some r => Ok r
   | None =>
   (* (x == y) == 0 becomes x != y *)
   if (op =? opEquals) && is0 opSub2 subExp2 && (opSub1 =? opEquals) then
     ' (x, y) <- asBinary subExp1 ;;
     Ok (Binary opNotEqual x y, true)
   (* (x == y) != 1 becomes x != y *)
   else if (op =? opNotEqual) && (opSub2 =? opIntConst)
      && (getInt subExp2 =? 1) && (opSub1 =? opEquals) then
     ' (x, y) <- asBinary subExp1 ;;
     Ok (Binary opNotEqual x y, true)
   (* (x == y) != 0 becomes x == y *)
   else if (op =? opNotEqual) && is0 opSub2 subExp2 && (opSub1 =? opEquals) then
     Ok (subExp1, true)
   (* (x > y) == 0 becomes x <= y *)
   else if (op =? opEquals) && is0 opSub2 subExp2 && (opSub1 =? opGtr) then
     ' (x, y) <- asBinary subExp1 ;;
     Ok (Binary opLessEq x y, true)
   (* (x >u y) == 0 becomes x <=u y *)
   else if (op =? opEquals) && is0 opSub2 subExp2 && (opSub1 =? opGtrUns) then
     ' (x, y) <- asBinary subExp1 ;;
     Ok (Binary opLessEqUns x y, true)
   else
   (* (x <= y) || (x == y) becomes x <= y *)
   same <- (if (op =? opOr) && (opSub2 =? opEquals)
               && ((opSub1 =? opGtrEq) || (opSub1 =? opLessEq)
                   || (opSub1 =? opGtrEqUns) || (opSub1 =? opLessEqUns))
            then ' (b1s1, b1s2) <- asBinary subExp1 ;;
                 ' (b2s1, b2s2) <- asBinary subExp2 ;;
                 Ok ((equals b1s1 b2s1 && equals b1s2 b2s2)
                     || (equals b1s1 b2s2 && equals b1s2 b2s1))
            else Ok false) ;;
   if same then Ok (subExp1, true)
   (* for (a || b) or (a && b) recurse on a and b *)
   else if (op =? opOr) || (op =? opAnd) then
     ' (subExp1, bMod) <- polySimplify subExp1 bMod ;;
     ' (subExp2, bMod) <- polySimplify subExp2 bMod ;;
     Ok (Binary op subExp1 subExp2, bMod)
   (* x & x becomes x *)
   else if (op =? opBitAnd) && equals subExp1 subExp2 then Ok (subExp1, true)
   else
   (* a + a*n becomes a*(n+1) *)
   plusmul <- (if (op =? opPlus) && (opSub2 =? opMult)
               then a <- of_option (getSubExp1 subExp2) ;;
                    if equals subExp1 a then
                      n <- of_option (getSubExp2 subExp2) ;;
                      Ok (getOper n =? opIntConst)
                    else Ok false
               else Ok false) ;;
   if plusmul then
     res <- updInt2 (fun n => wrap (n + 1)) subExp2 ;;
     Ok (res, true)
   else
   (* a*n*m becomes a*(n*m) *)
   mulmul <- (if (op =? opMult) && (opSub1 =? opMult) && (opSub2 =? opIntConst)
              then ' (_, n) <- asBinary subExp1 ;;
                   Ok (getOper n =? opIntConst)
              else Ok false) ;;
   if mulmul then
     let m := getInt subExp2 in
     res <- updInt2 (fun n => wrap (n * m)) subExp1 ;;
     Ok (res, true)
   (* !(a == b) becomes a != b *)
   else if (op =? opLNot) && (opSub1 =? opEquals) then
     res <- of_option (setOper opNotEqual subExp1) ;;
     Ok (res, true)
   (* !(a != b) becomes a == b *)
   else if (op =? opLNot) && (opSub1 =? opNotEqual) then
     res <- of_option (setOper opEquals subExp1) ;;
     Ok (res, true)
   else Ok (Binary op subExp1 subExp2, bMod)
   end
   end)%result.

(* Ternary::polySimplify *)
Definition Ternary_polySimplify (op : OPER) (subExp1 subExp2 subExp3 : Exp T R)
    (bMod : bool) : result (Exp T R * bool) :=
  (' (subExp1, bMod) <- polySimplify subExp1 bMod ;;
   ' (subExp2, bMod) <- polySimplify subExp2 bMod ;;
   ' (subExp3, bMod) <- polySimplify subExp3 bMod ;;
   if (getOper subExp2 =? opIntConst) && (getOper subExp3 =? opIntConst)
      && (getInt subExp2 =? 1) && (getInt subExp3 =? 0)
   then Ok (subExp1, true)
   else Ok (Ternary op subExp1 subExp2 subExp3, bMod))%result.

End Bodies.

(** Modelled from the spec: the default [Exp::polySimplify] of exp.h,
    which Const and Terminal inherit, is not among the sources; §4.3.2
    gives rewrites for the other variants only, so a leaf is returned as
    it is and bMod is left alone.  FlagDef inherits
    [Unary::polySimplify]. *)
Fixpoint polySimplify (fuel : nat) (this : Exp T R) (bMod : bool)
    : result (Exp T R * bool) :=
  match fuel with
  | O => OutOfFuel
  | S fuel' =>
    match this with
    | Const _ | Terminal _ => Ok (this, bMod)
    | Unary op a => Unary_polySimplify (polySimplify fuel') op a bMod
    | FlagDef a rtl =>
        (' (a, bMod) <- polySimplify fuel' a bMod ;;
         Ok (FlagDef a rtl, bMod))%result
    | Binary op a b => Binary_polySimplify (polySimplify fuel') op a b bMod
    | Ternary op a b c => Ternary_polySimplify (polySimplify fuel') op a b c bMod
    | TypedExp ty a =>
        let opSub1 := getOper a in
        if opSub1 =? opAssignExp then Abort        (* assert *)
        else (' (a, bMod) <- polySimplify fuel' a bMod ;;
              Ok (TypedExp ty a, bMod))%result
    | AssignExp sz a b =>
        (' (a, bMod) <- polySimplify fuel' a bMod ;;
         ' (b, bMod) <- polySimplify fuel' b bMod ;;
         Ok (AssignExp sz a b, bMod))%result
    end
  end.

(* Exp::simplify: do { bMod = false; res = res->polySimplify(bMod); }
   while (bMod); fuel bounds both the passes and the depth of each *)
Fixpoint simplify_loop (passes fuel : nat) (res : Exp T R) : result (Exp T R) :=
  match passes with
  | O => OutOfFuel
  | S passes' =>
      (' (res, bMod) <- polySimplify fuel res false ;;
       if bMod then simplify_loop passes' fuel res else Ok res)%result
  end.

Definition simplify (fuel : nat) (this : Exp T R) : result (Exp T R) :=
  simplify_loop fuel fuel this.

End Peephole.

(** ** Serialization *)

Section Serialization.
Context {T R : Type} {TO : TypeOps T} {RO : RTLOps R} {U : Util}.

Definition chr (c : ascii) : Z := Z.of_nat (nat_of_ascii c).

(* saveFID(ouf, FID_EXP_END); saveLen(ouf, 0); *)
Definition endOfNode : stream := saveFID FID_EXP_END ++ saveLen 0.

(* the virtual serialize: the bytes it appends to ouf (it always returns
   true; the default label of Const::serialize asserts and is not
   reachable, a Const having one of the three constant ops) *)
Fixpoint serialize (e : Exp T R) : stream :=
  match e with
  | Const u =>
      saveChar (chr "C") ++ saveInt (constOp u)
      ++ match u with
         | CInt i => saveInt i
         | CFlt d => saveDouble d
         | CStr p => saveString p
         end
      ++ endOfNode
  | Terminal op =>
      saveChar (chr "t") ++ saveInt op ++ endOfNode
  | Unary op a =>
      saveChar (chr "U") ++ saveInt op ++ serialize a ++ endOfNode
  | Binary op a b =>
      saveChar (chr "B") ++ saveInt op ++ serialize a ++ serialize b
      ++ endOfNode
  | Ternary op a b c =>
      saveChar (chr "T") ++ saveInt op ++ serialize a ++ serialize b
      ++ serialize c ++ endOfNode
  | TypedExp ty a =>
      saveChar (chr "y") ++ saveInt opTypedExp ++ type_serialize ty
      ++ serialize a ++ endOfNode
  | AssignExp sz a b =>
      saveChar (chr "A") ++ saveInt opAssignExp ++ saveInt sz
      ++ serialize a ++ serialize b ++ endOfNode
  | FlagDef a rtl =>
      saveChar (chr "F") ++ saveInt opFlagDef ++ serialize a
      ++ rtl_serialize rtl ++ endOfNode
  end.

(* the two messages that deserialize writes to cerr *)
Inductive warning : Type :=
| UnknownConstType      (* "WARNING: unknown const expression type, ..." *)
| UnknownExpType.       (* "WARNING: unknown expression type, ..." *)

(* the pointer that deserialize returns: null, a tree, or a node built
   over a null child (a constructor is handed whatever the recursive call
   returned), which is outside the data model *)
Inductive loaded : Type :=
| Null
| Node (e : Exp T R)
| Holed.

Definition node1 (f : Exp T R -> Exp T R) (r1 : loaded) : loaded :=
  match r1 with Node a => Node (f a) | _ => Holed end.
Definition node2 (f : Exp T R -> Exp T R -> Exp T R) (r1 r2 : loaded) : loaded :=
  match r1, r2 with Node a, Node b => Node (f a b) | _, _ => Holed end.
Definition node3 (f : Exp T R -> Exp T R -> Exp T R -> Exp T R)
    (r1 r2 r3 : loaded) : loaded :=
  match r1, r2, r3 with
  | Node a, Node b, Node c => Node (f a b c)
  | _, _, _ => Holed
  end.

(* s.c_str() as strdup sees it: the bytes before the first NUL *)
Fixpoint c_str (s : list Z) : cstring :=
  match s with
  | [] => []
  | c :: s' => if c =? 0 then [] else c :: c_str s'
  end.

(* a load from a stream that does not hold the value leaves the variable
   unset: undefined *)
Definition load {A} (f : stream -> option (A * stream)) (inf : stream)
    : result (A * stream) := of_option (f inf).

(* if (e) { assert(loadFID(inf) == FID_EXP_END); assert(loadLen(inf) == 0); } *)
Definition endCheck (e : loaded) (inf : stream) (log : list warning)
    : result (loaded * stream * list warning) :=
  match e with
  | Null => Ok (e, inf, log)
  | _ =>
      (' (fid, inf) <- load loadFID inf ;;
       if negb (fid =? FID_EXP_END) then Abort else
       ' (len, inf) <- load loadLen inf ;;
       if negb (len =? 0) then Abort else
       Ok (e, inf, log))%result
  end.

(* Exp::deserialize: the pointer returned, the stream left and the
   warnings written; fuel bounds the nesting of the recursive calls *)
Fixpoint deserialize (fuel : nat) (inf : stream) (log : list warning)
    : result (loaded * stream * list warning) :=
  match fuel with
  | O => OutOfFuel
  | S fuel' =>
    (' (ch, inf) <- load loadChar inf ;;
     ' (iop, inf) <- load loadInt inf ;;
     let op : OPER := iop in
     ' (e, inf, log) <-
       (if ch =? chr "C" then
          if op =? opIntConst then
            ' (i, inf) <- load loadInt inf ;;
            Ok (Node (Const (CInt i)), inf, log)
          else if op =? opFltConst then
            ' (d, inf) <- load loadDouble inf ;;
            Ok (Node (Const (CFlt d)), inf, log)
          else if op =? opStrConst then
            ' (s, inf) <- load loadString inf ;;
            Ok (Node (Const (CStr (c_str s))), inf, log)
          else Ok (Null, inf, log ++ [UnknownConstType])
        else if ch =? chr "t" then
          Ok (Node (Terminal op), inf, log)
        else if ch =? chr "U" then
          ' (e1, inf, log) <- deserialize fuel' inf log ;;
          Ok (node1 (Unary op) e1, inf, log)
        else if ch =? chr "B" then
          ' (e1, inf, log) <- deserialize fuel' inf log ;;
          ' (e2, inf, log) <- deserialize fuel' inf log ;;
          Ok (node2 (Binary op) e1 e2, inf, log)
        else if ch =? chr "T" then
          ' (e1, inf, log) <- deserialize fuel' inf log ;;
          ' (e2, inf, log) <- deserialize fuel' inf log ;;
          ' (e3, inf, log) <- deserialize fuel' inf log ;;
          Ok (node3 (Ternary op) e1 e2 e3, inf, log)
        else if ch =? chr "y" then
          ' (t, inf) <- load type_deserialize inf ;;
          ' (e1, inf, log) <- deserialize fuel' inf log ;;
          Ok (node1 (TypedExp t) e1, inf, log)
        else if ch =? chr "A" then
          ' (sz, inf) <- load loadInt inf ;;
          ' (e1, inf, log) <- deserialize fuel' inf log ;;
          ' (e2, inf, log) <- deserialize fuel' inf log ;;
          Ok (node2 (AssignExp sz) e1 e2, inf, log)
        else if ch =? chr "F" then
          ' (e1, inf, log) <- deserialize fuel' inf log ;;
          ' (r, inf) <- load rtl_deserialize inf ;;
          Ok (node1 (fun a => FlagDef a r) e1, inf, log)
        else Ok (Null, inf, log ++ [UnknownExpType])) ;;
     endCheck e inf log)%result
  end.

(* the tags and the constant ops that deserialize knows *)
Definition known_tag (ch : Z) : bool :=
  existsb (fun c => ch =? chr c)
    ["C"; "t"; "U"; "B"; "T"; "y"; "A"; "F"]%char.

Definition const_op (op : OPER) : bool :=
  (op =? opIntConst) || (op =? opFltConst) || (op =? opStrConst).

End Serialization.
Arguments loaded : clear implicits.

(* settle the comparisons of the tag just read with the literal tags *)
Ltac decide_tags :=
  repeat match goal with
  | |- context [chr ?c =? chr ?d] =>
      let b := eval vm_compute in (chr c =? chr d) in
      change (chr c =? chr d) with b
  end;
  cbv iota.

(** ** Well-formed trees, pre-order, and what is assumed of the collaborators *)

Section WellFormed.
Context {T R : Type}.

Definition valid_cstring (s : cstring) : bool :=
  forallb (fun c => (0 <? c) && (c <? 256)) s
  && (Z.of_nat (length s) <=? Int32.max_int).

Definition valid_cval (u : cval) : bool :=
  match u with
  | CInt i => Int32.in_range i
  | CFlt d => (0 <=? d) && (d <? 2 ^ 64)
  | CStr p => valid_cstring p
  end.

(* every field holds a value of its C++ type: an int is a 32-bit int (the
   ops included, which are written as int), a double a 64-bit pattern, a
   char* a NUL-free string *)
Fixpoint storable (e : Exp T R) : bool :=
  match e with
  | Const u => valid_cval u
  | Terminal op => Int32.in_range op
  | Unary op a => Int32.in_range op && storable a
  | Binary op a b => Int32.in_range op && storable a && storable b
  | Ternary op a b c =>
      Int32.in_range op && storable a && storable b && storable c
  | TypedExp _ a => storable a
  | AssignExp sz a b => Int32.in_range sz && storable a && storable b
  | FlagDef a _ => storable a
  end.

(* no floating-point constant of the tree is a NaN *)
Fixpoint noNaN (e : Exp T R) : bool :=
  match e with
  | Const (CFlt d) => negb (Dbl.isNaN d)
  | Const _ | Terminal _ => true
  | Unary _ a | TypedExp _ a | FlagDef a _ => noNaN a
  | Binary _ a b | AssignExp _ a b => noNaN a && noNaN b
  | Ternary _ a b c => noNaN a && noNaN b && noNaN c
  end.

(* the subtrees in pre-order: the root, then the children left to right *)
Fixpoint preorder (e : Exp T R) : list (Exp T R) :=
  e :: match e with
       | Const _ | Terminal _ => []
       | Unary _ a | TypedExp _ a | FlagDef a _ => preorder a
       | Binary _ a b | AssignExp _ a b => preorder a ++ preorder b
       | Ternary _ a b c => preorder a ++ preorder b ++ preorder c
       end.

(* the same list with the slot of each subtree, here being the slot of e *)
Fixpoint located (here : path) (e : Exp T R) : list (path * Exp T R) :=
  (here, e)
  :: match e with
     | Const _ | Terminal _ => []
     | Unary _ a | TypedExp _ a | FlagDef a _ => located (here ++ [1%nat]) a
     | Binary _ a b | AssignExp _ a b =>
         located (here ++ [1%nat]) a ++ located (here ++ [2%nat]) b
     | Ternary _ a b c =>
         located (here ++ [1%nat]) a ++ located (here ++ [2%nat]) b
         ++ located (here ++ [3%nat]) c
     end.

(* the test of doSearch on a located subtree *)
Definition matches {TO : TypeOps T} (srch : Exp T R) (pt : path * Exp T R) : bool :=
  equals srch (snd pt).

End WellFormed.

(* each load reads back what the matching save wrote and leaves the rest
   of the stream *)
Class UtilLaws (U : Util) : Prop := {
  load_save_char : forall c rest,
    0 <= c < 256 -> loadChar (saveChar c ++ rest) = Some (c, rest);
  load_save_int : forall i rest,
    Int32.in_range i = true -> loadInt (saveInt i ++ rest) = Some (i, rest);
  load_save_double : forall d rest,
    0 <= d < 2 ^ 64 -> loadDouble (saveDouble d ++ rest) = Some (d, rest);
  load_save_string : forall s rest,
    valid_cstring s = true ->
    loadString (saveString s ++ rest) = Some (s, rest);
  load_save_fid : forall rest,
    loadFID (saveFID FID_EXP_END ++ rest) = Some (FID_EXP_END, rest);
  load_save_len : forall rest,
    loadLen (saveLen 0 ++ rest) = Some (0, rest)
}.

Class TypeLaws {T : Type} (TO : TypeOps T) : Prop := {
  type_ne_irrefl : forall t, type_ne t t = false;
  type_load_save : forall t rest,
    type_deserialize (type_serialize t ++ rest) = Some (t, rest)
}.

Class RTLLaws {R : Type} (RO : RTLOps R) : Prop := {
  rtl_load_save : forall r rest,
    rtl_deserialize (rtl_serialize r ++ rest) = Some (r, rest)
}.

(** ** A concrete instance of the collaborators *)

(** Modelled from the spec: one byte layout that meets §4.4 (a tag byte,
    little-endian 4-byte ints, 8-byte doubles, strings prefixed by their
    length, a 2-byte marker followed by its length), a type handle with
    four values and an RTL handle with one.  It instantiates the
    parameters wherever a statement is evaluated on a literal tree. *)
Module Sample.

Fixpoint le_encode (n : nat) (z : Z) : list Z :=
  match n with
  | O => []
  | S n' => z mod 256 :: le_encode n' (z / 256)
  end.

Fixpoint le_decode (l : list Z) : Z :=
  match l with
  | [] => 0
  | b :: l' => b + 256 * le_decode l'
  end.

Definition take (n : nat) (s : stream) : option (list Z * stream) :=
  if (n <=? length s)%nat then Some (firstn n s, skipn n s) else None.

Definition save_int (i : Z) : stream := le_encode 4 (Int32.unsigned_of i).
Definition load_int (s : stream) : option (Z * stream) :=
  match take 4 s with
  | Some (bs, rest) => Some (Int32.wrap (le_decode bs), rest)
  | None => None
  end.

Definition save_string (p : cstring) : stream :=
  save_int (Z.of_nat (length p)) ++ p.
Definition load_string (s : stream) : option (cstring * stream) :=
  match load_int s with
  | Some (n, rest) => if n <? 0 then None else take (Z.to_nat n) rest
  | None => None
  end.

#[export] Instance util : Util := {
  saveChar c := [c];
  loadChar s := match s with c :: rest => Some (c, rest) | [] => None end;
  saveInt := save_int;
  loadInt := load_int;
  saveDouble d := le_encode 8 d;
  loadDouble s := match take 8 s with
                  | Some (bs, rest) => Some (le_decode bs, rest)
                  | None => None
                  end;
  saveString := save_string;
  loadString := load_string;
  saveFID f := le_encode 2 f;
  loadFID s := match take 2 s with
               | Some (bs, rest) => Some (le_decode bs, rest)
               | None => None
               end;
  saveLen := save_int;
  loadLen := load_int;
  FID_EXP_END := 4660
}.

(* a type handle: four of the classes of type.h, written as one byte *)
Inductive ty : Type := VoidType | BooleanType | CharType | FloatType.
Definition ty_code (t : ty) : Z :=
  match t with VoidType => 0 | BooleanType => 1 | CharType => 2 | FloatType => 3 end.
Definition ty_size (t : ty) : Z :=
  match t with VoidType => 0 | BooleanType => 1 | CharType => 8 | FloatType => 64 end.
Definition ty_load (s : stream) : option (ty * stream) :=
  match s with
  | c :: rest =>
      if c =? 0 then Some (VoidType, rest)
      else if c =? 1 then Some (BooleanType, rest)
      else if c =? 2 then Some (CharType, rest)
      else if c =? 3 then Some (FloatType, rest)
      else None
  | [] => None
  end.
#[export] Instance typeOps : TypeOps ty := {
  type_ne a b := negb (ty_code a =? ty_code b);
  type_lt a b := ty_code a <? ty_code b;
  type_getSize := ty_size;
  type_serialize t := [ty_code t];
  type_deserialize := ty_load
}.

(* an RTL handle: the empty RTL, which writes nothing *)
Definition rtl : Type := unit.
#[export] Instance rtlOps : RTLOps rtl := {
  rtl_serialize _ := [];
  rtl_deserialize s := Some (tt, s)
}.

Definition exp : Type := Exp ty rtl.

(* r[k], integer constants, succ(e) and a quiet NaN (0x7FF8000000000000) *)
Definition Reg (k : Z) : exp := Unary opRegOf (Const (CInt k)).
Definition IntConst (k : Z) : exp := Const (CInt k).
Definition Succ (e : exp) : exp := Unary opSuccessor e.
Definition quietNaN : Z := 9221120237041090560.
(* *32* r[1] := *8* "hi" *)
Definition typedAssign : exp :=
  AssignExp 32 (Reg 1) (TypedExp CharType (Const (CStr [104; 105]))).

End Sample.

(** ** More of exp.cpp: address simplification, fill removal, uses *)

Section More.
Context {T R : Type} {TO : TypeOps T}.

(** Modelled from the spec: the default [Exp::simplifyAddr] of exp.h,
    which Const and Terminal inherit, is not among the sources; by §4.3.2
    a leaf has no address-of to remove and is returned as it is.  FlagDef
    inherits [Unary::simplifyAddr]. *)
Fixpoint simplifyAddr (this : Exp T R) : result (Exp T R) :=
  match this with
  | Const _ | Terminal _ => Ok this
  | Unary op a =>
      if negb (op =? opAddrOf) then
        (a' <- simplifyAddr a ;; Ok (Unary op a'))%result
      else if getOper a =? opMemOf then
        of_option (getSubExp1 a)
      else
        (collapsed <-
           (if getOper a =? opSize then
              sub <- of_option (getSubExp2 a) ;;
              if getOper sub =? opMemOf then
                x <- of_option (getSubExp1 sub) ;;
                Ok (Some x)
              else Ok None
            else Ok None) ;;
         match collapsed with
         | Some x => Ok x
         | None => a' <- simplifyAddr a ;; Ok (Unary op a')
         end)%result
  | FlagDef a rtl =>
      (a' <- simplifyAddr a ;; Ok (FlagDef a' rtl))%result
  | Binary op a b =>
      (a' <- simplifyAddr a ;;
       b' <- simplifyAddr b ;;
       Ok (Binary op a' b'))%result
  | Ternary op a b c =>
      (a' <- simplifyAddr a ;;
       b' <- simplifyAddr b ;;
       c' <- simplifyAddr c ;;
       Ok (Ternary op a' b' c'))%result
  | TypedExp ty a =>
      (a' <- simplifyAddr a ;; Ok (TypedExp ty a'))%result
  | AssignExp sz a b =>
      (a' <- simplifyAddr a ;;
       b' <- simplifyAddr b ;;
       Ok (AssignExp sz a' b'))%result
  end.

(* new Ternary(opWild): its three children are null pointers.  As the
   left operand of operator== it answers true at the test of its op and
   never reads them, so any children can stand for them here. *)
Definition wildTernary : Exp T R :=
  Ternary opWild (Terminal opNil) (Terminal opNil) (Terminal opNil).

(* static Ternary srch1(opZfill, ...), srch2(opSgnEx, ...) *)
Definition srch1 : Exp T R := Ternary opZfill wildTernary wildTernary wildTernary.
Definition srch2 : Exp T R := Ternary opSgnEx wildTernary wildTernary wildTernary.

(* q with the prefix p taken off, when p is a prefix of q *)
Fixpoint strip (p q : path) : option path :=
  match p, q with
  | [], _ => Some q
  | i :: p', j :: q' => if Nat.eqb i j then strip p' q' else None
  | _ :: _, [] => None
  end.

(* where the slot q is once the becomeSubExp3() of the node in slot pp
   has been stored into that slot: the
   node that slot pp held is deleted with its first two children, and its
   third child now hangs from slot pp.  A slot outside that node, or pp
   itself, stays; a slot inside the third child moves up with it; the
   members of the deleted node and the slots below its first two children
   are gone (None). *)
Definition relocate (pp q : path) : option path :=
  match strip pp q with
  | None => Some q
  | Some [] => Some q
  | Some (3%nat :: i :: r) => Some (pp ++ i :: r)
  | Some _ => None
  end.

(* the loop of killFill over the list of slots; where_ gives the present
   place of each slot that was listed, and a slot that is gone is read
   all the same: undefined *)
Fixpoint killLoop (li : list path) (where_ : path -> option path)
    (res : Exp T R) : result (Exp T R) :=
  match li with
  | [] => Ok res
  | it :: li' =>
      (pp <- of_option (where_ it) ;;
       node <- of_option (subExpAt pp res) ;;
       sub3 <- of_option (getSubExp3 node) ;;
       killLoop li'
         (fun q => match where_ q with
                   | Some q' => relocate pp q'
                   | None => None
                   end)
         (assignAt pp sub3 res))%result
  end.

(* Exp::killFill *)
Definition killFill (this : Exp T R) : result (Exp T R) :=
  let result := doSearch srch1 this [] [] false in
  let result := doSearch srch2 this [] result false in
  killLoop result (fun q => Some q) this.

(** Modelled from the spec: [Exp::isMemOf] is defined in exp.h, which is
    not among the sources; a memory dereference is a node whose op is
    opMemOf. *)
Definition isMemOf (e : Exp T R) : bool := getOper e =? opMemOf.

(* AssignExp::usesExp, on the children of the assignment *)
Definition usesExp (subExp1 subExp2 : Exp T R) (e : Exp T R) : result bool :=
  if fst (search e subExp2) then Ok true
  else if isMemOf subExp1 then
    (addr <- of_option (getSubExp1 subExp1) ;;
     Ok (fst (search e addr)))%result
  else Ok false.

(** *** Shapes that the properties speak of *)

(* a term of a sum: what the default label of partitionTerms takes *)
Definition isTerm (e : Exp T R) : bool :=
  negb ((getOper e =? opPlus) || (getOper e =? opMinus)
        || (getOper e =? opTypedExp) || (getOper e =? opAssignExp)
        || (getOper e =? opIntConst)).

(* a tree of + and - over integer constants, and its value in Z *)
Fixpoint sumOfInts (e : Exp T R) : bool :=
  match e with
  | Const (CInt _) => true
  | Binary op a b =>
      ((op =? opPlus) || (op =? opMinus)) && sumOfInts a && sumOfInts b
  | _ => false
  end.

Fixpoint valueOf (e : Exp T R) : Z :=
  match e with
  | Const (CInt k) => k
  | Binary op a b =>
      if op =? opPlus then valueOf a + valueOf b else valueOf a - valueOf b
  | _ => 0
  end.

(* no node of the tree has one of the given ops *)
Fixpoint opFree (ops : list OPER) (e : Exp T R) : bool :=
  negb (existsb (Z.eqb (getOper e)) ops)
  && match e with
     | Const _ | Terminal _ => true
     | Unary _ a | TypedExp _ a | FlagDef a _ => opFree ops a
     | Binary _ a b | AssignExp _ a b => opFree ops a && opFree ops b
     | Ternary _ a b c => opFree ops a && opFree ops b && opFree ops c
     end.

End More.

(** *** Vocabulary of the further properties *)

Section Vocabulary.
Context {T R : Type}.

(* the ops that killFill looks for, and the wildcard that its patterns
   also accept *)
Definition fills : list OPER := [opZfill; opSgnEx; opWild].

(* push_back of one term, or of several, on the list that negate selects *)
Definition push (t : Exp T R) (negate : bool) (acc : partition) : partition :=
  if negate
  then mkPartition (positives acc) (negatives acc ++ [t]) (integers acc)
  else mkPartition (positives acc ++ [t]) (negatives acc) (integers acc).

Definition pushAll (l : list (Exp T R)) (negate : bool) (acc : partition)
    : partition :=
  if negate
  then mkPartition (positives acc) (negatives acc ++ l) (integers acc)
  else mkPartition (positives acc ++ l) (negatives acc) (integers acc).

(* the two lists of terms hold terms only *)
Definition terms_only (part : @partition T R) : Prop :=
  Forall (fun t => isTerm t = true) (positives part)
  /\ Forall (fun t => isTerm t = true) (negatives part).

(* the sum of a list of ints, in Z *)
Definition total (l : list Z) : Z := fold_right Z.add 0 l.

End Vocabulary.

(* the records that deserialize finds malformed, with the warning it
   writes for each: a tag byte that is none of the eight, or the tag of a
   Const with an op that is none of the three constant ops *)
Definition malformed (ch iop : Z) (w : warning) : Prop :=
  (known_tag ch = false /\ w = UnknownExpType)
  \/ (ch = chr "C" /\ const_op iop = false /\ w = UnknownConstType).

(* inverts the binds of a hypothesis [c1 ;; c2 ;; ... = Ok v] with the
   inversion lemma of bind *)
Ltac unbind inv H :=
  repeat (apply inv in H;
          let x := fresh "x" in
          destruct H as (x & _ & H);
          repeat match type of x with (_ * _)%type => destruct x as [x ?] end;
          cbn beta iota in H).

(* literal trees on which the further properties are run *)
Module Trees.
Import Sample.
(* a[m[r[1]]] and m[r[1] + 4] *)
Definition addrOfMem : exp := Unary opAddrOf (Unary opMemOf (Reg 1)).
Definition memAt4 : exp := Unary opMemOf (Binary opPlus (Reg 1) (IntConst 4)).
(* zfill(8, 32, r[1]) and the two nestings of the fills *)
Definition zfillReg : exp := Ternary opZfill (IntConst 8) (IntConst 32) (Reg 1).
Definition sgnexOverZfill : exp :=
  Ternary opSgnEx (IntConst 16) (IntConst 32) zfillReg.
Definition zfillOverSgnex : exp :=
  Ternary opZfill (IntConst 16) (IntConst 32)
    (Ternary opSgnEx (IntConst 8) (IntConst 16) (Reg 1)).
(* (r[1] + 3) - r[2], (3 + 4) - 10 and a flag definition *)
Definition mixedSum : exp :=
  Binary opMinus (Binary opPlus (Reg 1) (IntConst 3)) (Reg 2).
Definition intSum : exp :=
  Binary opMinus (Binary opPlus (IntConst 3) (IntConst 4)) (IntConst 10).
Definition flagDef : exp := FlagDef (Reg 1) tt.
(* a Unary record over a record with the unknown tag 'x', and the bytes
   0 0 9, which start with a marker that is not FID_EXP_END *)
Definition badChild : stream := [85; 12; 0; 0; 0; 120; 0; 0; 0; 0; 7; 7].
Definition badMarker : stream := [0; 0; 9].
(* r[3] - (succ(r[7]) + succ(r[5])), succ(r[r[2]]) + succ(r[5]), and the
   slots of their children *)
Definition twoSucc : exp :=
  Binary opMinus (Reg 3) (Binary opPlus (Succ (Reg 7)) (Succ (Reg 5))).
Definition badSucc : exp :=
  Binary opPlus (Unary opSuccessor (Unary opRegOf (Reg 2))) (Succ (Reg 5)).
Definition slot1 : path := [1%nat].
Definition slot21 : path := [2%nat; 1%nat].
Definition slot22 : path := [2%nat; 2%nat].
(* a record with the unknown tag 'x'; the record of the constant 5 with
   opPlus written in place of its op; and the latter as the child of a
   Unary record *)
Definition badTag : stream := [120; 0; 0; 0; 0; 7; 7].
Definition badConstRecord : stream :=
  saveChar (chr "C") ++ saveInt opPlus ++ saveInt 5 ++ endOfNode.
Definition nestedBadConst : stream :=
  saveChar (chr "U") ++ saveInt opNeg ++ badConstRecord ++ endOfNode.
End Trees.

Ltac split_ands :=
  repeat match goal with
  | H : _ && _ = true |- _ => apply andb_prop in H; destruct H
  end.

(* one pass over [x op k], for an x that the pass leaves alone and that is
   no integer constant: the goal is taken past the two recursive calls *)
Ltac pass_on x :=
  match goal with
  | Hx : polySimplify (S ?f) x false = Ok (x, false),
    Hop : (getOper x =? opIntConst) = false
    |- polySimplify (S (S ?f)) (Binary ?op x ?c) false = _ =>
      change (polySimplify (S (S f)) (Binary op x c) false)
        with (Binary_polySimplify (polySimplify (S f)) op x c false);
      unfold Binary_polySimplify; rewrite Hx; cbn [bind];
      let r := eval cbn in (polySimplify (S f) c false) in
      change (polySimplify (S f) c false) with r;
      cbn [bind]; rewrite Hop; cbn [andb bind]
  end.

(** * Properties *)

(** ** Lists *)

Section ListFacts.
Context {A B : Type}.

Lemma find_head_filter (f : A -> bool) (l : list A) (x : A) :
  find f l = Some x -> exists rest, filter f l = x :: rest.
Proof.
  induction l as [|y l IH]; simpl; [discriminate|].
  destruct (f y) eqn:Hy.
  - intros H; injection H as ->. eauto.
  - exact IH.
Qed.

Lemma find_none_filter (f : A -> bool) (l : list A) :
  find f l = None -> filter f l = [].
Proof.
  induction l as [|y l IH]; simpl; [reflexivity|].
  destruct (f y); [discriminate | exact IH].
Qed.

Lemma find_weaken (f g : A -> bool) (l : list A) (x : A) :
  find f l = Some x -> g x = true ->
  (forall y, g y = true -> f y = true) ->
  find g l = Some x.
Proof.
  intros Hf Hx Hgf. induction l as [|y l IH]; simpl in *; [discriminate|].
  destruct (f y) eqn:Hy.
  - injection Hf as ->. rewrite Hx. reflexivity.
  - destruct (g y) eqn:Hg.
    + rewrite (Hgf _ Hg) in Hy. discriminate.
    + exact (IH Hf).
Qed.

Lemma find_map_snd (f : B -> bool) (l : list (A * B)) :
  find f (map snd l) = option_map snd (find (fun pt => f (snd pt)) l).
Proof.
  induction l as [|[p t] l IH]; simpl; [reflexivity|].
  destruct (f t); [reflexivity | exact IH].
Qed.

Lemma find_In (f : A -> bool) (l : list A) (x : A) :
  find f l = Some x -> In x l /\ f x = true.
Proof. apply find_some. Qed.

End ListFacts.

(** ** Search *)

Section SearchFacts.
Context {T R : Type} {TO : TypeOps T}.
Implicit Types (e t srch : Exp T R) (here p q : path).

Lemma located_preorder e here : map snd (located here e) = preorder e.
Proof.
  revert here; induction e; intros here; simpl;
    rewrite ?map_app, ?IHe, ?IHe1, ?IHe2, ?IHe3; reflexivity.
Qed.

Lemma subExpAt_app p q e :
  subExpAt (p ++ q) e =
  match subExpAt p e with Some c => subExpAt q c | None => None end.
Proof.
  revert e; induction p as [|i p IH]; intros e; simpl; [reflexivity|].
  destruct (child i e); [apply IH | reflexivity].
Qed.

(* every located slot is below here, and holds the subtree it is listed with *)
Lemma located_subExpAt e : forall here p t,
  In (p, t) (located here e) ->
  exists q, p = here ++ q /\ subExpAt q e = Some t.
Proof.
  induction e; intros here p t; simpl;
    repeat (rewrite in_app_iff);
    intros H;
    repeat match goal with
    | H : _ \/ _ |- _ => destruct H as [H|H]
    | H : (_, _) = (_, _) |- _ =>
        injection H as <- <-; exists []; rewrite app_nil_r; split; reflexivity
    | H : False |- _ => destruct H
    | IH : forall here p t, In _ (located here ?a) -> _,
      H : In _ (located (_ ++ [?i]) ?a) |- _ =>
        destruct (IH _ _ _ H) as (q & -> & Hq);
        exists (i :: q); rewrite <- app_assoc; split; [reflexivity | exact Hq]
    end.
Qed.

(* with once = false, doSearch appends the matching slots in pre-order *)
Lemma doSearch_all srch e : forall here li,
  doSearch srch e here li false =
  li ++ map fst (filter (matches srch) (located here e)).
Proof.
  unfold matches.
  induction e; intros here li; simpl;
    rewrite ?andb_false_r; simpl;
    rewrite ?IHe, ?IHe1, ?IHe2, ?IHe3;
    match goal with
    | |- context [equals srch ?x] => destruct (equals srch x)
    end; simpl;
    rewrite ?filter_app, ?map_app, <- ?app_assoc; simpl;
    rewrite ?app_nil_r; reflexivity.
Qed.

Lemma search_find srch e :
  search srch e =
  match find (matches srch) (located [] e) with
  | Some (_, t) => (true, Some t)
  | None => (false, None)
  end.
Proof.
  unfold search. rewrite doSearch_all. simpl.
  destruct (find (matches srch) (located [] e)) as [[p t]|] eqn:Hf.
  - destruct (find_head_filter _ _ _ Hf) as [rest ->]. simpl.
    apply find_In in Hf. destruct Hf as [Hin _].
    destruct (located_subExpAt _ _ _ _ Hin) as (q & -> & Hq).
    simpl. rewrite Hq. reflexivity.
  - rewrite (find_none_filter _ _ Hf). reflexivity.
Qed.

Lemma find_located_preorder srch e :
  find (equals srch) (preorder e) =
  option_map snd (find (matches srch) (located [] e)).
Proof.
  rewrite <- (located_preorder e []). apply find_map_snd.
Qed.

Lemma child_setChild i c e e' :
  setChild i c e = Some e' -> child i e' = Some c.
Proof.
  destruct i as [|[|[|[|i]]]]; destruct e; simpl; intros H;
    inversion H; subst; reflexivity.
Qed.

Lemma child_setChild_other i j c e e' :
  i <> j -> setChild i c e = Some e' -> child j e' = child j e.
Proof.
  intros Hij.
  destruct i as [|[|[|[|i]]]]; destruct e; simpl; intros H;
    inversion H; subst;
    destruct j as [|[|[|[|j]]]]; simpl; try reflexivity; congruence.
Qed.

Lemma setChild_defined i c c' e :
  child i e = Some c -> exists e', setChild i c' e = Some e'.
Proof.
  destruct i as [|[|[|[|i]]]]; destruct e; simpl; intros H;
    inversion H; subst; eauto.
Qed.

(* the slot assigned holds the new tree *)
Lemma assignAt_at p r e t :
  subExpAt p e = Some t -> subExpAt p (assignAt p r e) = Some r.
Proof.
  revert e; induction p as [|i p IH]; intros e; simpl; [reflexivity|].
  destruct (child i e) as [c|] eqn:Hc; [|discriminate].
  intros Hp.
  destruct (setChild_defined i c (assignAt p r c) e Hc) as [e' He'].
  rewrite He'. rewrite (child_setChild _ _ _ _ He'). apply IH. exact Hp.
Qed.

(* a slot that is neither above nor below the slot assigned keeps its
   content *)
Lemma assignAt_frame p : forall q r e,
  is_prefix p q = false -> is_prefix q p = false ->
  subExpAt q (assignAt p r e) = subExpAt q e.
Proof.
  induction p as [|i p IH]; intros q r e Hpq Hqp; [discriminate|].
  destruct q as [|j q]; [discriminate|].
  simpl in Hpq, Hqp. cbn [assignAt].
  destruct (child i e) as [c|] eqn:Hc; [|reflexivity].
  destruct (setChild_defined i c (assignAt p r c) e Hc) as [e' He'].
  rewrite He'. cbn [subExpAt].
  destruct (Nat.eqb_spec i j) as [<-|Hij].
  - rewrite (child_setChild _ _ _ _ He'), Hc.
    rewrite Nat.eqb_refl in Hqp. simpl in Hpq, Hqp. apply IH; assumption.
  - rewrite (child_setChild_other _ _ _ _ _ Hij He'). reflexivity.
Qed.

End SearchFacts.

Section SearchClaims.
Context {T R : Type} {TO : TypeOps T}.

Lemma find_none_intro {A} (f : A -> bool) (l : list A) :
  (forall x, In x l -> f x = false) -> find f l = None.
Proof.
  intros H. destruct (find f l) as [x|] eqn:Hf; [|reflexivity].
  apply find_some in Hf. destruct Hf as [Hin Hx].
  rewrite (H _ Hin) in Hx. discriminate.
Qed.

(** C10.  When no subtree of [x] equals the pattern [p] (the wildcard
    rule of [operator==] included), [search] returns false and leaves the
    null pointer in [result]; when some subtree does, it returns true and
    [result] is the first such subtree in pre-order. *)
Theorem search_first_match (p x : Exp T R) :
  ((forall t, In t (preorder x) -> equals p t = false) ->
   search p x = (false, None))
  /\ (forall t, find (equals p) (preorder x) = Some t ->
      search p x = (true, Some t)).
Proof.
  rewrite search_find. split.
  - intros Hno. apply find_none_intro in Hno.
    rewrite find_located_preorder in Hno.
    destruct (find (matches p) (located [] x)) as [[q t]|];
      [discriminate | reflexivity].
  - intros t Ht. rewrite find_located_preorder in Ht.
    destruct (find (matches p) (located [] x)) as [[q t']|];
      simpl in Ht; [|discriminate].
    injection Ht as ->. reflexivity.
Qed.

(* the pattern succ(r[WILD]) accepts whatever equals a succ(r[k]) *)
Lemma succRegOf_general (k : Z) (t : Exp T R) :
  equals (Unary opSuccessor (Unary opRegOf (Const (CInt k)))) t = true ->
  equals succRegOf t = true.
Proof.
  unfold succRegOf. cbn [equals].
  destruct (opSuccessor =? opWild); [trivial|].
  destruct (getOper t =? opWild); [trivial|].
  destruct (negb (opSuccessor =? getOper t)); [trivial|].
  destruct (getSubExp1 t) as [t1|]; [|trivial].
  destruct (opRegOf =? opWild); [trivial|].
  destruct (getOper t1 =? opWild); [trivial|].
  destruct (negb (opRegOf =? getOper t1)); [trivial|].
  destruct (getSubExp1 t1) as [t2|]; [|trivial].
  intros _. reflexivity.
Qed.

(** C8, as amended.  [fixSuccessor] rewrites at most one occurrence: it
    looks at the first subtree in pre-order that matches succ(r[WILD]).
    When no subtree matches, the expression is returned as it is.  When
    that first match is a succ(r[k]) with an integer constant k, the slot
    that holds it is overwritten with r[k+1] (k+1 as a 32-bit int), and
    every slot that is neither above nor below it keeps its content, later
    successor terms included.  When that first match is a succ(r[x]) whose
    x is no integer constant, the assert on x fails, whatever follows it. *)
Theorem fixSuccessor_first_occurrence (e : Exp T R) :
  (find (matches succRegOf) (located [] e) = None -> fixSuccessor e = Ok e)
  /\ (forall p k,
        find (matches succRegOf) (located [] e)
        = Some (p, Unary opSuccessor (Unary opRegOf (Const (CInt k)))) ->
        exists e',
          fixSuccessor e = Ok e'
          /\ e' = assignAt p (Unary opRegOf (Const (CInt (Int32.wrap (k + 1))))) e
          /\ subExpAt p e'
             = Some (Unary opRegOf (Const (CInt (Int32.wrap (k + 1)))))
          /\ (forall q, is_prefix p q = false -> is_prefix q p = false ->
                subExpAt q e' = subExpAt q e))
  /\ (forall p x,
        find (matches succRegOf) (located [] e)
        = Some (p, Unary opSuccessor (Unary opRegOf x)) ->
        (getOper x =? opIntConst) = false ->
        fixSuccessor e = Abort).
Proof.
  unfold fixSuccessor. rewrite search_find. split; [|split].
  - intros ->. reflexivity.
  - intros p k Hf. rewrite Hf. cbn.
    unfold searchReplace, searchReplaceAll. rewrite doSearch_all. cbn [app].
    set (result := Unary opSuccessor (Unary opRegOf (Const (CInt k)))) in *.
    assert (Hg : find (matches result) (located [] e) = Some (p, result)).
    { apply (find_weaken _ _ _ _ Hf).
      - unfold matches, result. cbn. rewrite Z.eqb_refl. reflexivity.
      - intros [q t]. unfold matches. cbn [snd]. apply succRegOf_general. }
    destruct (find_head_filter _ _ _ Hg) as [rest ->].
    eexists. split; [reflexivity|]. split; [reflexivity|]. split.
    + apply find_In in Hf. destruct Hf as [Hin _].
      destruct (located_subExpAt _ _ _ _ Hin) as (q & -> & Hq).
      simpl. eapply assignAt_at. exact Hq.
    + intros q Hpq Hqp. apply assignAt_frame; assumption.
  - intros p x Hf Hx. rewrite Hf. cbn. rewrite Hx. reflexivity.
Qed.

End SearchClaims.

(** ** Equality on a tree and itself *)

Section EqualsFacts.
Context {T R : Type} {TO : TypeOps T} {TL : TypeLaws TO}.

Lemma strcmp_refl (s : cstring) : strcmp s s = Eq.
Proof.
  induction s as [|c s IH]; simpl; [reflexivity|].
  rewrite Z.compare_refl. exact IH.
Qed.

Lemma dbl_eq_refl (d : Z) : Dbl.isNaN d = false -> Dbl.dbl_eq d d = true.
Proof. intros H. unfold Dbl.dbl_eq. rewrite H, Z.eqb_refl. reflexivity. Qed.

Lemma equals_refl (x : Exp T R) : noNaN x = true -> equals x x = true.
Proof.
  induction x; simpl; intros H;
    repeat match goal with
    | H : _ && _ = true |- _ => apply andb_prop in H; destruct H
    end;
    rewrite ?Z.eqb_refl, ?type_ne_irrefl; simpl;
    rewrite ?IHx, ?IHx1, ?IHx2, ?IHx3 by assumption; simpl;
    try reflexivity;
    repeat match goal with
    | |- (if ?b then true else _) = true => destruct b; [reflexivity|]
    end; rewrite ?orb_true_r; try reflexivity.
  destruct u as [i|d|p]; simpl.
  - apply Z.eqb_refl.
  - apply dbl_eq_refl. simpl in H. destruct (Dbl.isNaN d); [discriminate|reflexivity].
  - rewrite strcmp_refl. reflexivity.
Qed.

End EqualsFacts.

(** ** Round trip through the stream *)

Section SerializationFacts.
Context {T R : Type} {TO : TypeOps T} {RO : RTLOps R} {U : Util}
        {UL : UtilLaws U} {TL : TypeLaws TO} {RL : RTLLaws RO}.

Lemma c_str_valid (s : cstring) : valid_cstring s = true -> c_str s = s.
Proof.
  unfold valid_cstring. intros H. apply andb_prop in H. destruct H as [H _].
  induction s as [|c s IH]; simpl in *; [reflexivity|].
  apply andb_prop in H. destruct H as [Hc Hs].
  destruct (Z.eqb_spec c 0) as [->|_]; [discriminate|].
  rewrite (IH Hs). reflexivity.
Qed.

Lemma load_tag (c : ascii) rest :
  load loadChar (saveChar (chr c) ++ rest) = Ok (chr c, rest).
Proof.
  unfold load. rewrite load_save_char; [reflexivity|].
  unfold chr. pose proof (nat_ascii_bounded c). lia.
Qed.

Lemma load_int i rest :
  Int32.in_range i = true ->
  load loadInt (saveInt i ++ rest) = Ok (i, rest).
Proof.
  intros H. unfold load. rewrite load_save_int by exact H. reflexivity.
Qed.

Lemma endCheck_endOfNode (x : Exp T R) rest log :
  endCheck (Node x) (endOfNode ++ rest) log = Ok (Node x, rest, log).
Proof.
  unfold endCheck, endOfNode, load. rewrite <- app_assoc.
  rewrite load_save_fid. cbn. rewrite Z.eqb_refl. cbn.
  rewrite load_save_len. reflexivity.
Qed.

Lemma deserialize_serialize (x : Exp T R) :
  storable x = true ->
  forall fuel rest log, (depth x < fuel)%nat ->
  deserialize fuel (serialize x ++ rest) log = Ok (Node x, rest, log).
Proof.
  induction x; intros Hs fuel rest log Hf;
    (destruct fuel as [|fuel]; [inversion Hf|]);
    cbn [storable] in Hs;
    repeat match goal with
    | H : _ && _ = true |- _ => apply andb_prop in H; destruct H
    end;
    cbn [serialize deserialize depth] in *;
    rewrite <- ?app_assoc; rewrite load_tag; cbn [bind]; decide_tags.
  - (* Const *)
    destruct u as [i|d|p]; cbn [constOp valid_cval] in *;
      rewrite load_int by reflexivity; cbn.
    + rewrite load_int by assumption. cbn. apply endCheck_endOfNode.
    + unfold load. rewrite load_save_double by lia. cbn.
      apply endCheck_endOfNode.
    + unfold load. rewrite load_save_string by assumption. cbn.
      rewrite c_str_valid by assumption. apply endCheck_endOfNode.
  - (* Terminal *)
    rewrite load_int by assumption. cbn. apply endCheck_endOfNode.
  - (* Unary *)
    rewrite load_int by assumption. cbn.
    rewrite IHx by (assumption || lia). cbn. apply endCheck_endOfNode.
  - (* Binary *)
    rewrite load_int by assumption. cbn.
    rewrite IHx1 by (assumption || lia). cbn.
    rewrite IHx2 by (assumption || lia). cbn. apply endCheck_endOfNode.
  - (* Ternary *)
    rewrite load_int by assumption. cbn.
    rewrite IHx1 by (assumption || lia). cbn.
    rewrite IHx2 by (assumption || lia). cbn.
    rewrite IHx3 by (assumption || lia). cbn. apply endCheck_endOfNode.
  - (* TypedExp *)
    rewrite load_int by reflexivity. cbn.
    unfold load at 1. rewrite type_load_save. cbn.
    rewrite IHx by (assumption || lia). cbn. apply endCheck_endOfNode.
  - (* AssignExp *)
    rewrite load_int by reflexivity. cbn.
    rewrite load_int by assumption. cbn.
    rewrite IHx1 by (assumption || lia). cbn.
    rewrite IHx2 by (assumption || lia). cbn. apply endCheck_endOfNode.
  - (* FlagDef *)
    rewrite load_int by reflexivity. cbn.
    rewrite IHx by (assumption || lia). cbn.
    unfold load at 1. rewrite rtl_load_save. cbn. apply endCheck_endOfNode.
Qed.

End SerializationFacts.

(** ** The concrete instance meets the assumptions *)

Module SampleFacts.
Import Sample.

Lemma le_encode_length n z : length (le_encode n z) = n.
Proof. revert z; induction n; intros z; simpl; [reflexivity | now rewrite IHn]. Qed.

Lemma le_decode_encode n z :
  le_decode (le_encode n z) = z mod 256 ^ Z.of_nat n.
Proof.
  revert z; induction n as [|n IH]; intros z.
  - simpl. now rewrite Z.mod_1_r.
  - cbn [le_encode le_decode]. rewrite IH.
    rewrite Nat2Z.inj_succ, Z.pow_succ_r by lia.
    rewrite Z.rem_mul_r by lia. reflexivity.
Qed.

Lemma take_app (l rest : stream) : take (length l) (l ++ rest) = Some (l, rest).
Proof.
  unfold take. rewrite length_app.
  destruct (Nat.leb_spec (length l) (length l + length rest)); [|lia].
  rewrite firstn_app, Nat.sub_diag, firstn_all, firstn_O, app_nil_r.
  rewrite skipn_app, Nat.sub_diag, skipn_all, skipn_O. reflexivity.
Qed.

Lemma wrap_unsigned i :
  Int32.in_range i = true -> Int32.wrap (Int32.unsigned_of i) = i.
Proof.
  unfold Int32.in_range, Int32.min_int, Int32.max_int, Int32.wrap,
    Int32.unsigned_of.
  intros H. apply andb_prop in H. destruct H as [H1 H2].
  apply Z.leb_le in H1, H2.
  rewrite Zplus_mod_idemp_l. rewrite Z.mod_small by lia. lia.
Qed.

Lemma load_save_int i rest :
  Int32.in_range i = true -> load_int (save_int i ++ rest) = Some (i, rest).
Proof.
  intros H. unfold load_int, save_int.
  rewrite <- (le_encode_length 4 (Int32.unsigned_of i)) at 1.
  rewrite take_app, le_decode_encode.
  change (256 ^ Z.of_nat 4) with (2 ^ 32).
  unfold Int32.unsigned_of at 1. rewrite Z.mod_mod by lia.
  fold (Int32.unsigned_of i). now rewrite wrap_unsigned.
Qed.

Lemma load_save_double d rest :
  0 <= d < 2 ^ 64 -> loadDouble (saveDouble d ++ rest) = Some (d, rest).
Proof.
  intros Hd. change (loadDouble (saveDouble d ++ rest))
    with (match take 8 (le_encode 8 d ++ rest) with
          | Some (bs, rest) => Some (le_decode bs, rest)
          | None => None
          end).
  rewrite <- (le_encode_length 8 d) at 1.
  rewrite take_app, le_decode_encode.
  change (256 ^ Z.of_nat 8) with (2 ^ 64).
  now rewrite Z.mod_small by lia.
Qed.

Lemma load_save_string s rest :
  valid_cstring s = true -> load_string (save_string s ++ rest) = Some (s, rest).
Proof.
  intros Hs. unfold load_string, save_string.
  unfold valid_cstring in Hs. apply andb_prop in Hs. destruct Hs as [_ Hl].
  apply Z.leb_le in Hl. unfold Int32.max_int in Hl.
  rewrite <- app_assoc, load_save_int.
  - destruct (Z.ltb_spec (Z.of_nat (length s)) 0); [lia|].
    rewrite Nat2Z.id. apply take_app.
  - unfold Int32.in_range, Int32.min_int, Int32.max_int.
    apply andb_true_intro; split; apply Z.leb_le; lia.
Qed.

#[export] Instance utilLaws : UtilLaws util.
Proof.
  constructor.
  - reflexivity.
  - exact load_save_int.
  - exact load_save_double.
  - exact load_save_string.
  - reflexivity.
  - reflexivity.
Qed.

#[export] Instance typeLaws : TypeLaws typeOps.
Proof.
  constructor.
  - intros t. cbn. now rewrite Z.eqb_refl.
  - intros [] rest; reflexivity.
Qed.

#[export] Instance rtlLaws : RTLLaws rtlOps.
Proof. constructor. intros [] rest. reflexivity. Qed.

End SampleFacts.

(** ** Serialization: the claims *)

Section SerializationClaims.
Context {T R : Type} {TO : TypeOps T} {RO : RTLOps R} {U : Util}.

(** C1, as amended.  For every expression [x] whose fields hold values
    of their C++ types and whose floating-point constants are not NaN,
    deserializing what [serialize] wrote gives back [x] itself (the size
    and children of an Assign and the payload of a Const included), consumes
    exactly those bytes, writes no warning, and the result is equal to [x]
    under [operator==]. *)
Theorem serialize_roundtrip
    (UL : UtilLaws U) (TL : TypeLaws TO) (RL : RTLLaws RO) (x : Exp T R) :
  storable x = true -> noNaN x = true ->
  forall fuel rest log, (depth x < fuel)%nat ->
  deserialize fuel (serialize x ++ rest) log = Ok (Node x, rest, log)
  /\ equals x x = true.
Proof.
  intros Hs Hn fuel rest log Hf. split.
  - apply deserialize_serialize; assumption.
  - apply equals_refl; assumption.
Qed.

(* a bind returns normally only if both of its parts do *)
Lemma bind_Ok {A B} (c : result A) (k : A -> result B) (b : B) :
  bind c k = Ok b -> exists a, c = Ok a /\ k a = Ok b.
Proof. destruct c; cbn; intros H; try discriminate. eauto. Qed.

Lemma endCheck_Null (e : @loaded T R) inf log inf' log' :
  endCheck e inf log = Ok (Null, inf', log') ->
  e = Null /\ inf' = inf /\ log' = log.
Proof.
  destruct e; cbn [endCheck]; intros H.
  - injection H as <- <-. auto.
  - apply bind_Ok in H. destruct H as ([fid i] & _ & H).
    destruct (negb (fid =? FID_EXP_END)); [discriminate|].
    apply bind_Ok in H. destruct H as ([len i2] & _ & H).
    destruct (negb (len =? 0)); discriminate.
  - apply bind_Ok in H. destruct H as ([fid i] & _ & H).
    destruct (negb (fid =? FID_EXP_END)); [discriminate|].
    apply bind_Ok in H. destruct H as ([len i2] & _ & H).
    destruct (negb (len =? 0)); discriminate.
Qed.

Lemma node1_not_Null f (r : @loaded T R) : node1 f r <> Null.
Proof. destruct r; discriminate. Qed.
Lemma node2_not_Null f (r1 r2 : @loaded T R) : node2 f r1 r2 <> Null.
Proof. destruct r1, r2; discriminate. Qed.
Lemma node3_not_Null f (r1 r2 r3 : @loaded T R) : node3 f r1 r2 r3 <> Null.
Proof. destruct r1, r2, r3; discriminate. Qed.

Lemma deserialize_malformed_call
    (fuel : nat) (inf inf1 inf2 : stream) (ch iop : Z) (w : warning)
    (log : list warning) :
  loadChar inf = Some (ch, inf1) ->
  loadInt inf1 = Some (iop, inf2) ->
  malformed ch iop w ->
  @deserialize T R _ _ _ (S fuel) inf log = Ok (Null, inf2, log ++ [w]).
Proof.
  intros Hc Hi Hm. cbn [deserialize]. unfold load. rewrite Hc. cbn. rewrite Hi. cbn.
  destruct Hm as [[Hk ->]|(-> & Hop & ->)].
  - unfold known_tag in Hk. cbn [existsb] in Hk.
    repeat (apply orb_false_elim in Hk; destruct Hk as [?Hk Hk]).
    repeat match goal with H : (ch =? chr _) = false |- _ => rewrite H; clear H end.
    reflexivity.
  - unfold const_op in Hop.
    apply orb_false_elim in Hop. destruct Hop as [Hop Hstr].
    apply orb_false_elim in Hop. destruct Hop as [Hint Hflt].
    change (chr "C" =? chr "C") with true. cbv iota.
    rewrite Hint, Hflt, Hstr. reflexivity.
Qed.

Lemma deserialize_Null_inv (fuel : nat) (inf inf' : stream)
    (log log' : list warning) :
  @deserialize T R _ _ _ fuel inf log = Ok (Null, inf', log') ->
  exists ch inf1 iop w,
    loadChar inf = Some (ch, inf1) /\ loadInt inf1 = Some (iop, inf')
    /\ malformed ch iop w /\ log' = log ++ [w].
Proof.
  destruct fuel as [|fuel]; [discriminate|].
  cbn [deserialize]. unfold load at 1 2.
  destruct (loadChar inf) as [[ch inf1]|] eqn:Hc; [|discriminate].
  cbn [of_option bind].
  destruct (loadInt inf1) as [[iop inf2]|] eqn:Hi; [|discriminate].
  cbn [of_option bind].
  intros H. apply bind_Ok in H. destruct H as ([[e i] l] & Hsw & He).
  apply endCheck_Null in He. destruct He as (-> & -> & ->).
  exists ch, inf1, iop.
  destruct (ch =? chr "C") eqn:EC.
  { destruct (iop =? opIntConst) eqn:E1; [unbind @bind_Ok Hsw; discriminate|].
    destruct (iop =? opFltConst) eqn:E2; [unbind @bind_Ok Hsw; discriminate|].
    destruct (iop =? opStrConst) eqn:E3; [unbind @bind_Ok Hsw; discriminate|].
    injection Hsw as <- <-. exists UnknownConstType.
    split; [first [reflexivity | assumption]|].
    split; [first [reflexivity | assumption]|]. split; [|reflexivity].
    right. split; [apply Z.eqb_eq; exact EC|]. split; [|reflexivity].
    unfold const_op. rewrite E1, E2, E3. reflexivity. }
  destruct (ch =? chr "t") eqn:Et; [discriminate|].
  destruct (ch =? chr "U") eqn:EU.
  { unbind @bind_Ok Hsw. injection Hsw as Hn _ _. destruct (node1_not_Null _ _ Hn). }
  destruct (ch =? chr "B") eqn:EB.
  { unbind @bind_Ok Hsw. injection Hsw as Hn _ _. destruct (node2_not_Null _ _ _ Hn). }
  destruct (ch =? chr "T") eqn:ET.
  { unbind @bind_Ok Hsw. injection Hsw as Hn _ _. destruct (node3_not_Null _ _ _ _ Hn). }
  destruct (ch =? chr "y") eqn:Ey.
  { unbind @bind_Ok Hsw. injection Hsw as Hn _ _. destruct (node1_not_Null _ _ Hn). }
  destruct (ch =? chr "A") eqn:EA.
  { unbind @bind_Ok Hsw. injection Hsw as Hn _ _. destruct (node2_not_Null _ _ _ Hn). }
  destruct (ch =? chr "F") eqn:EF.
  { unbind @bind_Ok Hsw. injection Hsw as Hn _ _. destruct (node1_not_Null _ _ Hn). }
  injection Hsw as <- <-. exists UnknownExpType.
  split; [first [reflexivity | assumption]|].
    split; [first [reflexivity | assumption]|]. split; [|reflexivity].
  left. split; [|reflexivity].
  unfold known_tag. cbn [existsb]. rewrite EC, Et, EU, EB, ET, Ey, EA, EF.
  reflexivity.
Qed.

(** C9, as amended.  The call of [deserialize] that reads a record with
    an unknown tag byte, or with the tag of a Const and an op that is none
    of the three constant ops, writes one warning and returns the null
    pointer: it has read the tag and the op only, what follows them stays
    in the stream, and no assert is reached.  The null pointer is returned
    for no other record, so a record around a malformed one is never
    dropped.  A Unary record whose child is malformed is built over the
    null child, and its end-of-node asserts read what the child left in
    the stream: when that does not begin with FID_EXP_END, the assert
    fails. *)
Theorem deserialize_malformed (fuel : nat) (log : list warning) :
  (forall inf inf1 inf2 ch iop w,
     loadChar inf = Some (ch, inf1) -> loadInt inf1 = Some (iop, inf2) ->
     malformed ch iop w ->
     @deserialize T R _ _ _ (S fuel) inf log = Ok (Null, inf2, log ++ [w]))
  /\ (forall inf inf' log',
        @deserialize T R _ _ _ fuel inf log = Ok (Null, inf', log') ->
        exists ch inf1 iop w,
          loadChar inf = Some (ch, inf1) /\ loadInt inf1 = Some (iop, inf')
          /\ malformed ch iop w /\ log' = log ++ [w])
  /\ (forall pinf pinf1 op inf inf1 inf2 ch iop w,
        loadChar pinf = Some (chr "U", pinf1) ->
        loadInt pinf1 = Some (op, inf) ->
        loadChar inf = Some (ch, inf1) -> loadInt inf1 = Some (iop, inf2) ->
        malformed ch iop w ->
        @deserialize T R _ _ _ (S (S fuel)) pinf log
        = endCheck Holed inf2 (log ++ [w])
        /\ (forall fid rest,
              loadFID inf2 = Some (fid, rest) -> fid <> FID_EXP_END ->
              @deserialize T R _ _ _ (S (S fuel)) pinf log = Abort)).
Proof.
  split; [|split].
  - intros; eapply deserialize_malformed_call; eassumption.
  - intros inf inf' log' H. exact (deserialize_Null_inv fuel inf inf' log log' H).
  - intros pinf pinf1 op inf inf1 inf2 ch iop w Hpc Hpi Hc Hi Hm.
    pose proof (deserialize_malformed_call fuel inf inf1 inf2 ch iop w log
                  Hc Hi Hm) as Hd.
    assert (E : @deserialize T R _ _ _ (S (S fuel)) pinf log
                = endCheck Holed inf2 (log ++ [w])).
    { remember (S fuel) as f eqn:Hf. cbn [deserialize]. unfold load at 1 2.
      rewrite Hpc. cbn [of_option bind]. rewrite Hpi. cbn [of_option bind].
      decide_tags. rewrite Hd. reflexivity. }
    split; [exact E|].
    intros fid rest Hfid Hne. rewrite E. cbn [endCheck]. unfold load at 1.
    rewrite Hfid. cbn [of_option bind].
    destruct (Z.eqb_spec fid FID_EXP_END) as [Heq|_]; [contradiction|reflexivity].
Qed.

End SerializationClaims.

(** ** The order *)

Section LessFacts.
Context {T R : Type} {TO : TypeOps T}.
Implicit Types (x o a b c : Exp T R).

Lemma size_of_pos x : (1 <= size_of x)%nat.
Proof. destruct x; simpl; lia. Qed.

Lemma getSubExp1_size o a : getSubExp1 o = Some a -> (size_of a < size_of o)%nat.
Proof. destruct o; simpl; intros H; inversion H; subst; lia. Qed.

Lemma getSubExp2_size o a : getSubExp2 o = Some a -> (size_of a < size_of o)%nat.
Proof. destruct o; simpl; intros H; inversion H; subst; lia. Qed.

Lemma getSubExp3_size o a : getSubExp3 o = Some a -> (size_of a < size_of o)%nat.
Proof. destruct o; simpl; intros H; inversion H; subst; lia. Qed.

(* the budget that less supplies is never exhausted: any two budgets of
   at least the two sizes give the same answer *)
Lemma lessF_stable : forall n m x o,
  (size_of x + size_of o <= n)%nat -> (size_of x + size_of o <= m)%nat ->
  lessF n x o = lessF m x o.
Proof.
  induction n as [|n IH]; intros m x o Hn Hm.
  - pose proof (size_of_pos x). lia.
  - destruct m as [|m]; [pose proof (size_of_pos x); lia|].
    destruct x; cbn [lessF]; try reflexivity; cbn [size_of] in Hn, Hm;
      repeat match goal with
      | |- context [getSubExp1 o] =>
          let E := fresh "E" in
          destruct (getSubExp1 o) eqn:E;
          [apply getSubExp1_size in E|]
      | |- context [getSubExp2 o] =>
          let E := fresh "E" in
          destruct (getSubExp2 o) eqn:E;
          [apply getSubExp2_size in E|]
      | |- context [getSubExp3 o] =>
          let E := fresh "E" in
          destruct (getSubExp3 o) eqn:E;
          [apply getSubExp3_size in E|]
      end;
      repeat match goal with
      | |- context [lessF n ?u ?v] =>
          rewrite (IH m u v) by lia
      end;
      reflexivity.
Qed.

Lemma lessF_less n x o :
  (size_of x + size_of o <= n)%nat -> lessF n x o = less x o.
Proof. intros H. unfold less. apply lessF_stable; [exact H | lia]. Qed.

(* Ternary::operator< on two Ternaries with one op *)
Lemma less_Ternary op a b c a' b' c' :
  less (Ternary op a b c) (Ternary op a' b' c') =
  if less a a' then true else if less a' a then false else less c c'.
Proof.
  unfold less at 1. cbn [size_of Nat.add lessF getOper getSubExp1 getSubExp3].
  rewrite Z.ltb_irrefl, Z.gtb_ltb, Z.ltb_irrefl.
  rewrite !lessF_less by lia. reflexivity.
Qed.

(* Binary::operator< on two Binaries with one op *)
Lemma less_Binary op a b a' b' :
  less (Binary op a b) (Binary op a' b') =
  if less a a' then true else if less a' a then false else less b b'.
Proof.
  unfold less at 1. cbn [size_of Nat.add lessF getOper getSubExp1 getSubExp2].
  rewrite Z.ltb_irrefl, Z.gtb_ltb, Z.ltb_irrefl.
  rewrite !lessF_less by lia. reflexivity.
Qed.

(* AssignExp::operator< on two AssignExps with one size *)
Lemma less_AssignExp sz a b a' b' :
  less (AssignExp sz a b) (AssignExp sz a' b') = less a a' || less b b'.
Proof.
  unfold less at 1.
  cbn [size_of Nat.add lessF getOper getSize getSubExp1 getSubExp2].
  rewrite !Z.ltb_irrefl, Z.gtb_ltb, Z.ltb_irrefl.
  rewrite !lessF_less by lia. reflexivity.
Qed.

End LessFacts.

(** ** Constant folding of the four divisions *)

Section FoldFacts.
Context {T R : Type} {TO : TypeOps T}.
Import Int32.

Lemma polySimplify_Div (n : nat) (k1 k2 : Z) :
  polySimplify (2 + n) (Binary opDiv (Const (CInt k1)) (Const (CInt k2)) : Exp T R) false
  = (q <- divu k1 k2 ;; q <- divs q k2 ;; Ok (Const (CInt q), true))%result.
Proof.
  cbn -[divu divs]. destruct (divu k1 k2) as [q| | |]; cbn -[divs]; try reflexivity.
  destruct (divs q k2); reflexivity.
Qed.

Lemma polySimplify_Mod (n : nat) (k1 k2 : Z) :
  polySimplify (2 + n) (Binary opMod (Const (CInt k1)) (Const (CInt k2)) : Exp T R) false
  = (q <- modu k1 k2 ;; q <- mods q k2 ;; Ok (Const (CInt q), true))%result.
Proof.
  cbn -[modu mods]. destruct (modu k1 k2) as [q| | |]; cbn -[mods]; try reflexivity.
  destruct (mods q k2); reflexivity.
Qed.

Lemma polySimplify_Divs (n : nat) (k1 k2 : Z) :
  polySimplify (2 + n) (Binary opDivs (Const (CInt k1)) (Const (CInt k2)) : Exp T R) false
  = (q <- divs k1 k2 ;; Ok (Const (CInt q), true))%result.
Proof. cbn -[divs]. destruct (divs k1 k2); reflexivity. Qed.

Lemma polySimplify_Mods (n : nat) (k1 k2 : Z) :
  polySimplify (2 + n) (Binary opMods (Const (CInt k1)) (Const (CInt k2)) : Exp T R) false
  = (q <- mods k1 k2 ;; Ok (Const (CInt q), true))%result.
Proof. cbn -[mods]. destruct (mods k1 k2); reflexivity. Qed.

End FoldFacts.

(** ** The uncounted rewrite of a subtraction *)

Section MinusFacts.
Context {T R : Type} {TO : TypeOps T}.

(* a pass over x - 0, for any x that the pass leaves alone, that is no
   integer constant and that does not equal 0 (so is no wildcard): the
   Minus becomes a Plus of a Neg, the test for a zero operand is not met,
   and bMod stays false *)
Lemma polySimplify_Minus_zero (f : nat) (x : Exp T R) :
  polySimplify f x false = Ok (x, false) ->
  (getOper x =? opIntConst) = false ->
  equals x (Const (CInt 0)) = false ->
  polySimplify (S f) (Binary opMinus x (Const (CInt 0))) false
  = Ok (Binary opPlus x (Unary opNeg (Const (CInt 0))), false).
Proof.
  intros Hx Hop Heq.
  destruct f as [|f]; [discriminate|].
  change (polySimplify (S (S f)) (Binary opMinus x (Const (CInt 0))) false)
    with (Binary_polySimplify (polySimplify (S f)) opMinus x
            (Const (CInt 0)) false).
  unfold Binary_polySimplify.
  rewrite Hx. cbn [bind].
  change (polySimplify (S f) (Const (CInt 0)) false)
    with (@Ok (Exp T R * bool) (Const (CInt 0), false)).
  cbn [bind]. rewrite Hop. cbn [andb bind]. rewrite Heq. reflexivity.
Qed.

(* hence simplify stops on x + -0 *)
Lemma simplify_Minus_zero (f : nat) (x : Exp T R) :
  polySimplify f x false = Ok (x, false) ->
  (getOper x =? opIntConst) = false ->
  equals x (Const (CInt 0)) = false ->
  simplify (S f) (Binary opMinus x (Const (CInt 0)))
  = Ok (Binary opPlus x (Unary opNeg (Const (CInt 0)))).
Proof.
  intros Hx Hop Heq. unfold simplify. cbn [simplify_loop].
  rewrite (polySimplify_Minus_zero f x Hx Hop Heq). reflexivity.
Qed.

End MinusFacts.

(** ** The claims on literal trees *)

Module Literal.
Import Sample.

(** C1, the claim as stated fails: a Const that holds a NaN is written
    and read back bit for bit, and is not equal to itself under
    [operator==], which compares the payloads as doubles. *)
Lemma serialize_roundtrip_NaN :
  storable (Const (CFlt quietNaN) : exp) = true
  /\ deserialize 1 (serialize (Const (CFlt quietNaN) : exp)) []
     = Ok (Node (Const (CFlt quietNaN)), [], [])
  /\ equals (Const (CFlt quietNaN) : exp) (Const (CFlt quietNaN)) = false.
Proof. vm_compute. repeat split. Qed.

Lemma serialize_roundtrip_witness :
  storable typedAssign = true
  /\ noNaN typedAssign = true
  /\ (depth typedAssign < 3)%nat
  /\ (deserialize 3 (serialize typedAssign ++ []) []
      = Ok (Node typedAssign, [], [])
      /\ equals typedAssign typedAssign = true).
Proof.
  split; [reflexivity|]. split; [reflexivity|]. split; [simpl; lia|].
  apply (serialize_roundtrip SampleFacts.utilLaws SampleFacts.typeLaws
           SampleFacts.rtlLaws);
    [reflexivity | reflexivity | simpl; lia].
Defined.

(** C9, the claim as stated fails: the record of a constant with an
    unknown op is not skipped, its payload and end marker stay in the
    stream; and as the child of a Unary record it makes the assert of the
    enclosing call fail, which terminates the program. *)
Lemma deserialize_malformed_nested_aborts :
  @deserialize ty rtl _ _ _ 1 Trees.badConstRecord []
  = Ok (Null, saveInt 5 ++ endOfNode, [UnknownConstType])
  /\ (forall n, @deserialize ty rtl _ _ _ (2 + n) Trees.nestedBadConst [] = Abort).
Proof. split; [reflexivity|]. intros n. reflexivity. Qed.

Lemma deserialize_malformed_witness :
  (loadChar Trees.badTag = Some (120, [0; 0; 0; 0; 7; 7])
   /\ loadInt [0; 0; 0; 0; 7; 7] = Some (0, [7; 7])
   /\ malformed 120 0 UnknownExpType
   /\ @deserialize ty rtl _ _ _ 1 Trees.badTag []
      = Ok (Null, [7; 7], [UnknownExpType]))
  /\ (loadChar Trees.badConstRecord
      = Some (chr "C", saveInt opPlus ++ saveInt 5 ++ endOfNode)
      /\ loadInt (saveInt opPlus ++ saveInt 5 ++ endOfNode)
         = Some (opPlus, saveInt 5 ++ endOfNode)
      /\ malformed (chr "C") opPlus UnknownConstType
      /\ @deserialize ty rtl _ _ _ 1 Trees.badConstRecord []
         = Ok (Null, saveInt 5 ++ endOfNode, [UnknownConstType]))
  /\ (@deserialize ty rtl _ _ _ 1 Trees.badTag []
      = Ok (Null, [7; 7], [UnknownExpType])
      /\ exists ch inf1 iop w,
           loadChar Trees.badTag = Some (ch, inf1)
           /\ loadInt inf1 = Some (iop, [7; 7])
           /\ malformed ch iop w /\ [UnknownExpType] = [] ++ [w])
  /\ (loadChar Trees.nestedBadConst
      = Some (chr "U", saveInt opNeg ++ Trees.badConstRecord ++ endOfNode)
      /\ loadInt (saveInt opNeg ++ Trees.badConstRecord ++ endOfNode)
         = Some (opNeg, Trees.badConstRecord ++ endOfNode)
      /\ loadChar (Trees.badConstRecord ++ endOfNode)
         = Some (chr "C", saveInt opPlus ++ saveInt 5 ++ endOfNode ++ endOfNode)
      /\ loadInt (saveInt opPlus ++ saveInt 5 ++ endOfNode ++ endOfNode)
         = Some (opPlus, saveInt 5 ++ endOfNode ++ endOfNode)
      /\ loadFID (saveInt 5 ++ endOfNode ++ endOfNode)
         = Some (5, [0; 0] ++ endOfNode ++ endOfNode)
      /\ 5 <> FID_EXP_END
      /\ @deserialize ty rtl _ _ _ 2 Trees.nestedBadConst [] = Abort).
Proof.
  assert (Hc1 : loadChar Trees.badTag = Some (120, [0; 0; 0; 0; 7; 7]))
    by reflexivity.
  assert (Hi1 : loadInt [0; 0; 0; 0; 7; 7] = Some (0, [7; 7])) by reflexivity.
  assert (Hm1 : malformed 120 0 UnknownExpType) by (left; split; reflexivity).
  assert (Hc2 : loadChar Trees.badConstRecord
                = Some (chr "C", saveInt opPlus ++ saveInt 5 ++ endOfNode))
    by reflexivity.
  assert (Hi2 : loadInt (saveInt opPlus ++ saveInt 5 ++ endOfNode)
                = Some (opPlus, saveInt 5 ++ endOfNode)) by reflexivity.
  assert (Hm2 : malformed (chr "C") opPlus UnknownConstType)
    by (right; split; [reflexivity | split; reflexivity]).
  assert (Hd : @deserialize ty rtl _ _ _ 1 Trees.badTag []
               = Ok (Null, [7; 7], [UnknownExpType])) by reflexivity.
  assert (Hc3 : loadChar Trees.nestedBadConst
                = Some (chr "U",
                        saveInt opNeg ++ Trees.badConstRecord ++ endOfNode))
    by reflexivity.
  assert (Hi3 : loadInt (saveInt opNeg ++ Trees.badConstRecord ++ endOfNode)
                = Some (opNeg, Trees.badConstRecord ++ endOfNode))
    by reflexivity.
  assert (Hc4 : loadChar (Trees.badConstRecord ++ endOfNode)
                = Some (chr "C", saveInt opPlus ++ saveInt 5 ++ endOfNode
                                 ++ endOfNode)) by reflexivity.
  assert (Hi4 : loadInt (saveInt opPlus ++ saveInt 5 ++ endOfNode ++ endOfNode)
                = Some (opPlus, saveInt 5 ++ endOfNode ++ endOfNode))
    by reflexivity.
  assert (Hf : loadFID (saveInt 5 ++ endOfNode ++ endOfNode)
               = Some (5, [0; 0] ++ endOfNode ++ endOfNode)) by reflexivity.
  assert (Hne : 5 <> FID_EXP_END) by discriminate.
  split; [|split; [|split]].
  - split; [exact Hc1|]. split; [exact Hi1|]. split; [exact Hm1|].
    exact (proj1 (deserialize_malformed (T := ty) (R := rtl) 0 [])
             _ _ _ _ _ _ Hc1 Hi1 Hm1).
  - split; [exact Hc2|]. split; [exact Hi2|]. split; [exact Hm2|].
    exact (proj1 (deserialize_malformed (T := ty) (R := rtl) 0 [])
             _ _ _ _ _ _ Hc2 Hi2 Hm2).
  - split; [exact Hd|].
    exact (proj1 (proj2 (deserialize_malformed (T := ty) (R := rtl) 1 []))
             _ _ _ Hd).
  - split; [exact Hc3|]. split; [exact Hi3|]. split; [exact Hc4|].
    split; [exact Hi4|]. split; [exact Hf|]. split; [exact Hne|].
    exact (proj2 (proj2 (proj2 (deserialize_malformed (T := ty) (R := rtl) 0 []))
                    _ _ _ _ _ _ _ _ _ Hc3 Hi3 Hc4 Hi4 Hm2)
             _ _ Hf Hne).
Defined.

Lemma search_first_match_witness :
  ((forall t, In t (preorder (Binary opPlus (Reg 1) (Reg 2) : exp)) ->
      equals (Reg 9) t = false)
   /\ search (Reg 9) (Binary opPlus (Reg 1) (Reg 2) : exp) = (false, None))
  /\ (find (equals (Unary opRegOf (Terminal opWild)))
        (preorder (Binary opPlus (Reg 1) (Reg 2) : exp)) = Some (Reg 1)
      /\ search (Unary opRegOf (Terminal opWild)) (Binary opPlus (Reg 1) (Reg 2) : exp)
         = (true, Some (Reg 1))).
Proof.
  assert (H : forall t, In t (preorder (Binary opPlus (Reg 1) (Reg 2) : exp)) ->
                equals (Reg 9) t = false).
  { intros t Hin. simpl in Hin.
    repeat (destruct Hin as [<-|Hin]; [reflexivity|]). destruct Hin. }
  split.
  - split; [exact H|].
    exact (proj1 (search_first_match (Reg 9) (Binary opPlus (Reg 1) (Reg 2))) H).
  - split; [reflexivity|].
    exact (proj2 (search_first_match (Unary opRegOf (Terminal opWild))
                    (Binary opPlus (Reg 1) (Reg 2))) (Reg 1) eq_refl).
Defined.

(** C8, the claim as stated fails: of two successor terms only the first
    is rewritten, and the result still holds a succ(r[5]). *)
Lemma fixSuccessor_second_kept :
  fixSuccessor (Binary opPlus (Succ (Reg 1)) (Succ (Reg 5)))
  = Ok (Binary opPlus (Reg 2) (Succ (Reg 5)))
  /\ search succRegOf (Binary opPlus (Reg 2) (Succ (Reg 5)))
     = (true, Some (Succ (Reg 5))).
Proof. vm_compute. split; reflexivity. Qed.

Lemma fixSuccessor_first_occurrence_witness :
  (find (matches succRegOf) (located [] (Succ (Reg 7)))
   = Some ([], Unary opSuccessor (Unary opRegOf (Const (CInt 7))))
   /\ exists e', fixSuccessor (Succ (Reg 7)) = Ok e' /\ e' = Reg 8)
  /\ (find (matches succRegOf) (located [] Trees.twoSucc)
      = Some (Trees.slot21, Unary opSuccessor (Unary opRegOf (Const (CInt 7))))
      /\ is_prefix Trees.slot21 Trees.slot22 = false
      /\ is_prefix Trees.slot22 Trees.slot21 = false
      /\ is_prefix Trees.slot21 Trees.slot1 = false
      /\ is_prefix Trees.slot1 Trees.slot21 = false
      /\ exists e', fixSuccessor Trees.twoSucc = Ok e'
                    /\ subExpAt Trees.slot21 e' = Some (Reg 8)
                    /\ subExpAt Trees.slot22 e' = Some (Succ (Reg 5))
                    /\ subExpAt Trees.slot1 e' = Some (Reg 3))
  /\ (find (matches succRegOf) (located [] (Binary opMinus (Reg 3) (IntConst 4)))
      = None
      /\ fixSuccessor (Binary opMinus (Reg 3) (IntConst 4))
         = Ok (Binary opMinus (Reg 3) (IntConst 4)))
  /\ (find (matches succRegOf) (located [] Trees.badSucc)
      = Some (Trees.slot1, Unary opSuccessor (Unary opRegOf (Reg 2)))
      /\ (getOper (Reg 2) =? opIntConst) = false
      /\ fixSuccessor Trees.badSucc = Abort).
Proof.
  split; [|split; [|split]].
  - split; [reflexivity|].
    destruct (proj1 (proj2 (fixSuccessor_first_occurrence (Succ (Reg 7))))
                [] 7 eq_refl) as (e' & H1 & H2 & _).
    exists e'. split; [exact H1 | exact H2].
  - split; [reflexivity|]. split; [reflexivity|]. split; [reflexivity|].
    split; [reflexivity|]. split; [reflexivity|].
    destruct (proj1 (proj2 (fixSuccessor_first_occurrence Trees.twoSucc))
                Trees.slot21 7 eq_refl) as (e' & H1 & _ & H3 & H4).
    exists e'. split; [exact H1|]. split; [exact H3|]. split.
    + rewrite (H4 Trees.slot22 eq_refl eq_refl). reflexivity.
    + rewrite (H4 Trees.slot1 eq_refl eq_refl). reflexivity.
  - split; [reflexivity|].
    exact (proj1 (fixSuccessor_first_occurrence
                    (Binary opMinus (Reg 3) (IntConst 4))) eq_refl).
  - split; [reflexivity|]. split; [reflexivity|].
    exact (proj2 (proj2 (fixSuccessor_first_occurrence Trees.badSucc))
             Trees.slot1 (Reg 2) eq_refl eq_refl).
Defined.

(** C3.  One pass over Div(k1, k2) does not stop at the unsigned
    quotient: the label opDiv has no break, so the quotient is divided
    again, as a signed int, by k2 (and likewise the remainder under opMod);
    Div(6, 2) folds to 1, where the unsigned quotient is 3.  Divs and Mods
    fold to the signed quotient and remainder. *)
Theorem polySimplify_Div_falls_through (n : nat) :
  (forall k1 k2,
     polySimplify (2 + n) (Binary opDiv (IntConst k1) (IntConst k2)) false
     = (q <- Int32.divu k1 k2 ;; q <- Int32.divs q k2 ;;
        Ok (IntConst q, true))%result)
  /\ (forall k1 k2,
       polySimplify (2 + n) (Binary opMod (IntConst k1) (IntConst k2)) false
       = (q <- Int32.modu k1 k2 ;; q <- Int32.mods q k2 ;;
          Ok (IntConst q, true))%result)
  /\ (forall k1 k2,
       polySimplify (2 + n) (Binary opDivs (IntConst k1) (IntConst k2)) false
       = (q <- Int32.divs k1 k2 ;; Ok (IntConst q, true))%result)
  /\ (forall k1 k2,
       polySimplify (2 + n) (Binary opMods (IntConst k1) (IntConst k2)) false
       = (q <- Int32.mods k1 k2 ;; Ok (IntConst q, true))%result)
  /\ polySimplify (2 + n) (Binary opDiv (IntConst 6) (IntConst 2)) false
     = Ok (IntConst 1, true)
  /\ Int32.divu 6 2 = Ok 3
  /\ polySimplify (2 + n) (Binary opMod (IntConst (-2)) (IntConst (-1))) false
     = Ok (IntConst 0, true)
  /\ Int32.modu (-2) (-1) = Ok (-2).
Proof.
  repeat split.
  - intros. apply polySimplify_Div.
  - intros. apply polySimplify_Mod.
  - intros. apply polySimplify_Divs.
  - intros. apply polySimplify_Mods.
Qed.

(** C4.  [operator<] on two Ternaries with one op compares the first
    children and then the third; the second children are never looked at.
    Two Ternaries that differ in the second child alone are unordered both
    ways although they are not equal and their second children are
    ordered. *)
Theorem less_Ternary_skips_subExp2 :
  (forall op (a b c a' b' c' : exp),
     less (Ternary op a b c) (Ternary op a' b' c')
     = if less a a' then true else if less a' a then false else less c c')
  /\ less (IntConst 1) (IntConst 2) = true
  /\ less (Ternary opTern (Reg 1) (IntConst 1) (Reg 3))
          (Ternary opTern (Reg 1) (IntConst 2) (Reg 3)) = false
  /\ less (Ternary opTern (Reg 1) (IntConst 2) (Reg 3))
          (Ternary opTern (Reg 1) (IntConst 1) (Reg 3)) = false
  /\ equals (Ternary opTern (Reg 1) (IntConst 1) (Reg 3))
            (Ternary opTern (Reg 1) (IntConst 2) (Reg 3)) = false.
Proof.
  split; [intros; apply less_Ternary|]. vm_compute. repeat split.
Qed.

(** C5.  [operator<] on two AssignExps of one size answers true as soon
    as either child is less than its counterpart, so two wildcard-free
    assignments with swapped sides are each less than the other. *)
Theorem less_AssignExp_both_ways :
  (forall sz (a b a' b' : exp),
     less (AssignExp sz a b) (AssignExp sz a' b') = less a a' || less b b')
  /\ less (AssignExp 32 (Reg 1) (Reg 2)) (AssignExp 32 (Reg 2) (Reg 1)) = true
  /\ less (AssignExp 32 (Reg 2) (Reg 1)) (AssignExp 32 (Reg 1) (Reg 2)) = true
  /\ equals (AssignExp 32 (Reg 1) (Reg 2)) (AssignExp 32 (Reg 2) (Reg 1)) = false.
Proof.
  split; [intros; apply less_AssignExp|]. vm_compute. repeat split.
Qed.

(** C6.  On an AssignExp, [partitionTerms] visits the first child twice
    and the second child never: the terms of the left side are counted
    twice and those of the right side are missing. *)
Theorem partitionTerms_AssignExp_lhs_twice :
  (forall sz (a b : exp) negate acc,
     partitionTerms (AssignExp sz a b) negate acc
     = (acc <- partitionTerms a negate acc ;; partitionTerms a negate acc)%result)
  /\ partitionTerms (AssignExp 32 (Reg 1) (Reg 2)) false empty_partition
     = Ok (mkPartition [Reg 1; Reg 1] [] []).
Proof. split; [intros; reflexivity | reflexivity]. Qed.

(** C7.  [simplify] leaves r[1] - 0 as r[1] + -0: the pass turns the
    Minus into a Plus of a Neg before the test for "exp - 0", which then
    sees a Neg and not the constant, and it reports no change, so the loop
    stops there. *)
Theorem simplify_Minus_zero_kept (n : nat) :
  simplify (4 + n) (Binary opMinus (Reg 1) (IntConst 0))
  = Ok (Binary opPlus (Reg 1) (Unary opNeg (IntConst 0)))
  /\ equals (Reg 1) (Binary opPlus (Reg 1) (Unary opNeg (IntConst 0))) = false.
Proof. vm_compute. split; reflexivity. Qed.

(** C2.  [simplify] is not idempotent: it takes r[1] - 0 to r[1] + -0,
    and takes that result on to r[1], which is not equal to it. *)
Theorem simplify_not_idempotent (n : nat) :
  simplify (4 + n) (Binary opMinus (Reg 1) (IntConst 0))
  = Ok (Binary opPlus (Reg 1) (Unary opNeg (IntConst 0)))
  /\ simplify (4 + n) (Binary opPlus (Reg 1) (Unary opNeg (IntConst 0)))
     = Ok (Reg 1)
  /\ equals (Reg 1) (Binary opPlus (Reg 1) (Unary opNeg (IntConst 0))) = false.
Proof. vm_compute. repeat split. Qed.

End Literal.

(** ** Further properties: the value protocol *)

Section ProtocolFacts.
Context {T R : Type} {TO : TypeOps T}.
Implicit Types (x o e : Exp T R).

Lemma getOper_clone x : getOper (clone x) = getOper x.
Proof. destruct x; reflexivity. Qed.

(** X1.  A clone is equal to its original, and the original to the clone,
    under [operator==], for every tree without a NaN constant (the clone
    of a FlagDef, which Unary::clone builds as a plain Unary, included). *)
Theorem clone_equals (TL : TypeLaws TO) x :
  noNaN x = true -> equals (clone x) x = true /\ equals x (clone x) = true.
Proof.
  induction x; intros H;
    try (split; apply (equals_refl (TL := TL)); exact H);
    simpl in H;
    repeat match goal with
    | H : _ && _ = true |- _ => apply andb_prop in H; destruct H
    end;
    repeat match goal with
    | IH : ?P -> _ /\ _, H : ?P |- _ => destruct (IH H); clear IH
    end;
    simpl;
    rewrite ?getOper_clone, ?Z.eqb_refl, ?type_ne_irrefl; simpl;
    repeat match goal with
    | H : equals _ _ = true |- _ => rewrite H; clear H
    end; simpl;
    split;
    repeat match goal with
    | |- (if ?b then true else _) = true => destruct b; [reflexivity|]
    end; reflexivity.
Qed.

(** X2.  The wildcard terminal equals every expression, on either side of
    [operator==]. *)
Theorem equals_Wild x :
  equals (Terminal opWild) x = true /\ equals x (Terminal opWild) = true.
Proof.
  split; [reflexivity|].
  destruct x; simpl; rewrite ?orb_true_r; try reflexivity;
    repeat match goal with
    | |- (if ?b then true else _) = true => destruct b; [reflexivity|]
    end; reflexivity.
Qed.

(** X3.  [operator<] orders by op first: when the op of [x] is below the
    op of [o], [x < o] holds and [o < x] does not, whatever the classes and
    the children of the two. *)
Theorem less_by_op x o :
  getOper x < getOper o -> less x o = true /\ less o x = false.
Proof.
  intros H. unfold less.
  assert (H1 : (getOper x <? getOper o) = true) by (apply Z.ltb_lt; exact H).
  assert (H2 : (getOper o <? getOper x) = false) by (apply Z.ltb_ge; lia).
  assert (H3 : (getOper o >? getOper x) = true) by (rewrite Z.gtb_ltb; exact H1).
  split.
  - destruct x; cbn [size_of Nat.add lessF]; cbn [getOper] in H1; rewrite H1; reflexivity.
  - destruct o; cbn [size_of Nat.add lessF]; cbn [getOper] in H2, H3;
      rewrite H2; try rewrite H3; reflexivity.
Qed.

Lemma lessF_irrefl :
  (forall t, type_lt t t = false) ->
  forall n x, lessF n x x = false.
Proof.
  intros Ht. induction n as [|n IH]; intros x; [reflexivity|].
  destruct x; cbn [lessF getOper getSubExp1 getSubExp2 getSubExp3 getType getSize];
    rewrite ?Z.gtb_ltb, ?Z.ltb_irrefl, ?Ht, ?IH; try reflexivity.
  destruct u; simpl; rewrite ?Z.ltb_irrefl; try reflexivity.
  - unfold Dbl.dbl_lt. rewrite Z.ltb_irrefl. apply andb_false_r.
  - rewrite strcmp_refl. reflexivity.
Qed.

(** X4.  No expression is less than itself, provided no type is less
    than itself. *)
Theorem less_irrefl :
  (forall t, type_lt t t = false) -> forall x, less x x = false.
Proof. intros Ht x. apply lessF_irrefl. exact Ht. Qed.

Lemma filter_map_snd {A B} (f : B -> bool) (l : list (A * B)) :
  filter f (map snd l) = map snd (filter (fun pt => f (snd pt)) l).
Proof.
  induction l as [|[p t] l IH]; simpl; [reflexivity|].
  destruct (f t); simpl; rewrite IH; reflexivity.
Qed.

Lemma nonempty_filter {A} (g : A -> bool) (l : list A) :
  nonempty (filter g l) = existsb g l.
Proof.
  induction l as [|a l IH]; simpl; [reflexivity|].
  destruct (g a); [reflexivity | exact IH].
Qed.

Lemma nonempty_map {A B} (f : A -> B) (l : list A) :
  nonempty (map f l) = nonempty l.
Proof. destruct l; reflexivity. Qed.

Lemma existsb_map_snd {A B} (f : B -> bool) (l : list (A * B)) :
  existsb f (map snd l) = existsb (fun pt => f (snd pt)) l.
Proof.
  induction l as [|[p t] l IH]; simpl; [reflexivity|]. now rewrite IH.
Qed.

Lemma deref_located e (l : list (path * Exp T R)) :
  (forall pt, In pt l -> In pt (located [] e)) ->
  flat_map (fun pp => match subExpAt pp e with
                      | Some t => [t] | None => [] end) (map fst l)
  = map snd l.
Proof.
  induction l as [|[p t] l IH]; intros Hin; simpl; [reflexivity|].
  destruct (located_subExpAt e [] p t (Hin _ (or_introl eq_refl)))
    as (q & Hq & Hsub).
  simpl in Hq. subst q. rewrite Hsub. simpl. f_equal.
  apply IH. intros pt Hpt. apply Hin. right. exact Hpt.
Qed.

(** X5.  [searchAll] returns every subtree that the pattern equals, in
    pre-order, and answers true exactly when there is one. *)
Theorem searchAll_preorder srch e :
  searchAll srch e
  = (existsb (equals srch) (preorder e), filter (equals srch) (preorder e)).
Proof.
  unfold searchAll. rewrite doSearch_all. cbn [app].
  rewrite nonempty_map, nonempty_filter.
  rewrite <- (located_preorder e []), existsb_map_snd, filter_map_snd.
  unfold matches. f_equal.
  apply deref_located. intros pt Hpt. apply filter_In in Hpt. tauto.
Qed.

Lemma located_head e here :
  exists rest, located here e = (here, e) :: rest
               /\ map snd rest = tl (preorder e).
Proof.
  pose proof (located_preorder e here) as H.
  destruct e; simpl in *; eexists; (split; [reflexivity|]);
    first [reflexivity | injection H as H; exact H].
Qed.

(** X6.  When the pattern equals no subtree, [searchReplaceAll] (and so
    [searchReplace]) returns the expression as it is and sets change to
    false. *)
Theorem searchReplace_no_match srch replace once e :
  existsb (equals srch) (preorder e) = false ->
  searchReplaceAll srch replace once e = Ok (e, false).
Proof.
  intros H. unfold searchReplaceAll. rewrite doSearch_all. cbn [app].
  rewrite <- (located_preorder e []), existsb_map_snd in H.
  rewrite <- nonempty_filter in H. fold (matches srch) in H.
  destruct (filter (matches srch) (located [] e)); [reflexivity | discriminate].
Qed.

(** X7.  When the pattern equals the expression itself, [searchReplace]
    returns a clone of the replacement and sets change to true. *)
Theorem searchReplace_root srch replace e :
  equals srch e = true ->
  searchReplace srch replace e = Ok (clone replace, true).
Proof.
  intros H. unfold searchReplace, searchReplaceAll. rewrite doSearch_all.
  destruct (located_head e []) as (rest & -> & _).
  cbn [app filter]. unfold matches at 1. cbn [snd]. rewrite H. reflexivity.
Qed.

(** X8.  When the pattern equals the expression itself and also one of
    its proper subtrees, replacing all matches writes into the node that
    the first replacement deleted: the behaviour is undefined. *)
Theorem searchReplaceAll_nested_root srch replace e :
  equals srch e = true ->
  existsb (equals srch) (tl (preorder e)) = true ->
  searchReplaceAll srch replace false e = Undefined.
Proof.
  intros H Hex. unfold searchReplaceAll. rewrite doSearch_all.
  destruct (located_head e []) as (rest & -> & Hrest).
  rewrite <- Hrest, existsb_map_snd, <- nonempty_filter in Hex.
  fold (matches srch) in Hex.
  cbn [app filter]. unfold matches at 1. cbn [snd]. rewrite H.
  destruct (filter (matches srch) rest) as [|[q t] l]; [discriminate|].
  reflexivity.
Qed.

End ProtocolFacts.

(** ** Further properties: address simplification, fills, uses *)

Section MoreFacts.
Context {T R : Type} {TO : TypeOps T}.
Implicit Types (x o e t : Exp T R).

Lemma opFree_getOper ops e :
  opFree ops e = true -> existsb (Z.eqb (getOper e)) ops = false.
Proof.
  destruct e; cbn [opFree]; intros H; apply andb_prop in H; destruct H as [H _];
    apply negb_true_iff in H; exact H.
Qed.

Lemma opFree_preorder ops e :
  opFree ops e = true ->
  forall t, In t (preorder e) -> existsb (Z.eqb (getOper t)) ops = false.
Proof.
  induction e; intros H t Hin; pose proof (opFree_getOper _ _ H) as Hop;
    cbn [opFree] in H; apply andb_prop in H; destruct H as [_ H]; split_ands;
    cbn [preorder] in Hin; (destruct Hin as [<-|Hin]; [exact Hop|]);
    rewrite ?in_app_iff in Hin;
    repeat match goal with
    | H : _ \/ _ |- _ => destruct H as [H|H]
    | H : In _ [] |- _ => destruct H
    end; eauto.
Qed.

(** X9.  [simplifyAddr] returns an expression without any address-of
    node unchanged. *)
Theorem simplifyAddr_no_AddrOf e :
  opFree [opAddrOf] e = true -> simplifyAddr e = Ok e.
Proof.
  induction e; intros H; pose proof (opFree_getOper _ _ H) as Hop;
    cbn [opFree] in H; apply andb_prop in H; destruct H as [_ H]; split_ands;
    cbn [simplifyAddr];
    rewrite ?IHe, ?IHe1, ?IHe2, ?IHe3 by assumption; try reflexivity.
  cbn in Hop. rewrite orb_false_r in Hop. rewrite Hop. reflexivity.
Qed.

(** X10.  [simplifyAddr] never returns more nodes than it was given. *)
Theorem simplifyAddr_size e : forall e',
  simplifyAddr e = Ok e' -> (size_of e' <= size_of e)%nat.
Proof.
  induction e; intros e' H; cbn [simplifyAddr] in H.
  1,2: injection H as <-; lia.
  - destruct (negb (op =? opAddrOf)).
    + destruct (simplifyAddr e) as [a| | |]; try discriminate.
      injection H as <-. specialize (IHe a eq_refl). simpl. lia.
    + destruct (getOper e =? opMemOf).
      * destruct (getSubExp1 e) as [a|] eqn:E; [|discriminate].
        injection H as <-. apply getSubExp1_size in E. simpl. lia.
      * destruct (getOper e =? opSize).
        -- destruct (getSubExp2 e) as [sub|] eqn:E2; [|discriminate].
           cbn in H. destruct (getOper sub =? opMemOf).
           ++ destruct (getSubExp1 sub) as [a|] eqn:E1; [|discriminate].
              injection H as <-. apply getSubExp2_size in E2.
              apply getSubExp1_size in E1. simpl. lia.
           ++ cbn in H. destruct (simplifyAddr e) as [a| | |]; try discriminate.
              injection H as <-. specialize (IHe a eq_refl). simpl. lia.
        -- cbn in H. destruct (simplifyAddr e) as [a| | |]; try discriminate.
           injection H as <-. specialize (IHe a eq_refl). simpl. lia.
  - destruct (simplifyAddr e1) as [a| | |]; try discriminate.
    destruct (simplifyAddr e2) as [b| | |]; try discriminate.
    injection H as <-. specialize (IHe1 a eq_refl). specialize (IHe2 b eq_refl).
    simpl. lia.
  - destruct (simplifyAddr e1) as [a| | |]; try discriminate.
    destruct (simplifyAddr e2) as [b| | |]; try discriminate.
    destruct (simplifyAddr e3) as [c| | |]; try discriminate.
    injection H as <-. specialize (IHe1 a eq_refl). specialize (IHe2 b eq_refl).
    specialize (IHe3 c eq_refl). simpl. lia.
  - destruct (simplifyAddr e) as [a| | |]; try discriminate.
    injection H as <-. specialize (IHe a eq_refl). simpl. lia.
  - destruct (simplifyAddr e1) as [a| | |]; try discriminate.
    destruct (simplifyAddr e2) as [b| | |]; try discriminate.
    injection H as <-. specialize (IHe1 a eq_refl). specialize (IHe2 b eq_refl).
    simpl. lia.
  - destruct (simplifyAddr e) as [a| | |]; try discriminate.
    injection H as <-. specialize (IHe a eq_refl). simpl. lia.
Qed.

Lemma srch_no_match (op : OPER) t :
  (op =? opWild) = false ->
  (getOper t =? opWild) = false -> (op =? getOper t) = false ->
  equals (Ternary op wildTernary wildTernary wildTernary) t = false.
Proof. intros H0 H1 H2. cbn [equals]. rewrite H0, H1, H2. reflexivity. Qed.

Lemma doSearch_none srch e here li :
  (forall t, In t (preorder e) -> equals srch t = false) ->
  doSearch srch e here li false = li.
Proof.
  intros H. rewrite doSearch_all.
  replace (filter (matches srch) (located here e)) with (@nil (path * Exp T R));
    [simpl; apply app_nil_r|].
  symmetry. apply find_none_filter. 
  destruct (find (matches srch) (located here e)) as [[p t]|] eqn:E; [|reflexivity].
  apply find_some in E. destruct E as [Hin Hm].
  assert (In t (preorder e)).
  { rewrite <- (located_preorder e here). change t with (snd (p, t)).
    apply in_map. exact Hin. }
  unfold matches in Hm. cbn in Hm. rewrite (H _ H0) in Hm. discriminate.
Qed.

Lemma fills_free_srch1 e :
  opFree fills e = true -> forall t, In t (preorder e) -> equals srch1 t = false.
Proof.
  intros H t Hin. pose proof (opFree_preorder _ _ H t Hin) as Hop.
  cbn in Hop. rewrite orb_false_r in Hop.
  apply orb_false_elim in Hop. destruct Hop as [Hz Hop].
  apply orb_false_elim in Hop. destruct Hop as [Hs Hw].
  apply srch_no_match; [reflexivity | exact Hw | rewrite Z.eqb_sym; exact Hz].
Qed.

Lemma fills_free_srch2 e :
  opFree fills e = true -> forall t, In t (preorder e) -> equals srch2 t = false.
Proof.
  intros H t Hin. pose proof (opFree_preorder _ _ H t Hin) as Hop.
  cbn in Hop. rewrite orb_false_r in Hop.
  apply orb_false_elim in Hop. destruct Hop as [Hz Hop].
  apply orb_false_elim in Hop. destruct Hop as [Hs Hw].
  apply srch_no_match; [reflexivity | exact Hw | rewrite Z.eqb_sym; exact Hs].
Qed.

(** X11.  [killFill] returns an expression without zfill, sgnex and
    wildcard nodes unchanged. *)
Theorem killFill_no_fill e :
  opFree fills e = true -> killFill e = Ok e.
Proof.
  intros H. unfold killFill.
  rewrite (doSearch_none srch1) by (apply fills_free_srch1; exact H).
  rewrite (doSearch_none srch2) by (apply fills_free_srch2; exact H).
  reflexivity.
Qed.


Lemma killLoop_gone (li : list path) : forall where_ (res : Exp T R) q,
  In q li -> where_ q = None -> killLoop li where_ res = Undefined.
Proof.
  induction li as [|it li IH]; intros where_ res q Hin Hq; [destruct Hin|].
  cbn [killLoop].
  destruct (where_ it) as [pp|] eqn:Hit; [|reflexivity]. cbn [of_option bind].
  destruct (subExpAt pp res) as [node|]; [|reflexivity]. cbn [of_option bind].
  destruct (getSubExp3 node) as [sub3|]; [|reflexivity]. cbn [of_option bind].
  destruct Hin as [->|Hin]; [congruence|].
  apply (IH _ _ q Hin). rewrite Hq. reflexivity.
Qed.

(** X12.  [killFill] of a zfill or a sgnex whose three operands hold no
    fill is the third operand. *)
Theorem killFill_root (a b c : Exp T R) :
  opFree fills a = true -> opFree fills b = true -> opFree fills c = true ->
  killFill (Ternary opZfill a b c) = Ok c
  /\ killFill (Ternary opSgnEx a b c) = Ok c.
Proof.
  intros Ha Hb Hc. unfold killFill. split; cbn [doSearch];
    repeat match goal with
    | |- context [equals ?s (Ternary ?op a b c)] =>
        let v := eval cbn in (equals s (Ternary op a b c)) in
        change (equals s (Ternary op a b c)) with v
    end; cbn [andb app];
    rewrite ?(doSearch_none srch1), ?(doSearch_none srch2)
      by (first [apply fills_free_srch1 | apply fills_free_srch2]; assumption);
    reflexivity.
Qed.

(** X13.  [killFill] strips both fills of sgnex(a, b, zfill(c, d, p)): the
    zfill slots are handled first, while the enclosing sgnex is alive. *)
Theorem killFill_SgnEx_over_Zfill (a b c d p : Exp T R) :
  opFree fills a = true -> opFree fills b = true -> opFree fills c = true ->
  opFree fills d = true -> opFree fills p = true ->
  killFill (Ternary opSgnEx a b (Ternary opZfill c d p)) = Ok p.
Proof.
  intros Ha Hb Hc Hd Hp. unfold killFill. cbn [doSearch].
  repeat match goal with
  | |- context [equals ?s (Ternary ?op ?x ?y ?z)] =>
      let v := eval cbn in (equals s (Ternary op x y z)) in
      change (equals s (Ternary op x y z)) with v
  end; cbn [andb app].
  rewrite ?(doSearch_none srch1), ?(doSearch_none srch2)
    by (first [apply fills_free_srch1 | apply fills_free_srch2]; assumption).
  reflexivity.
Qed.

Lemma located_child3 op (a b c : Exp T R) :
  In ([3%nat], c) (located [] (Ternary op a b c)).
Proof.
  cbn [located app]. right. rewrite !in_app_iff. right. right.
  destruct (located_head c [3%nat]) as (rest & -> & _). left. reflexivity.
Qed.

(** X14.  [killFill] of zfill(a, b, q) with q itself a zfill or a sgnex is
    undefined: the outer zfill is first in the list and is deleted when it
    becomes q, and the slot of q, a member of that deleted node, is read
    afterwards. *)
Theorem killFill_Zfill_over_fill (a b c d p : Exp T R) (op' : OPER) :
  op' = opZfill \/ op' = opSgnEx ->
  killFill (Ternary opZfill a b (Ternary op' c d p)) = Undefined.
Proof.
  intros Hop. unfold killFill. rewrite !doSearch_all. cbn [app].
  set (e := Ternary opZfill a b (Ternary op' c d p)).
  assert (Hin : In [3%nat]
            (map fst (filter (matches srch1) (located [] e))
             ++ map fst (filter (matches srch2) (located [] e)))).
  { apply in_app_iff.
    destruct Hop as [->| ->]; [left | right].
    - apply (in_map fst _ ([3%nat], Ternary opZfill c d p)).
      apply filter_In. split; [apply located_child3 | reflexivity].
    - apply (in_map fst _ ([3%nat], Ternary opSgnEx c d p)).
      apply filter_In. split; [apply located_child3 | reflexivity]. }
  destruct (located_head e []) as (rest & Hl & _). rewrite Hl in *.
  cbn [filter] in *. change (matches srch1 ([], e)) with true in *.
  cbn [map fst app] in *.
  destruct Hin as [Hin|Hin]; [discriminate|].
  cbn [killLoop of_option bind subExpAt]. unfold e at 1. cbn [getSubExp3 of_option bind].
  apply (killLoop_gone _ _ _ [3%nat] Hin). reflexivity.
Qed.

Lemma existsb_find {A} (f : A -> bool) (l : list A) :
  existsb f l = match find f l with Some _ => true | None => false end.
Proof.
  induction l as [|a l IH]; simpl; [reflexivity|].
  destruct (f a); [reflexivity | exact IH].
Qed.

Lemma search_fst srch e :
  fst (search srch e) = existsb (equals srch) (preorder e).
Proof.
  rewrite search_find, <- (located_preorder e []), existsb_map_snd.
  fold (matches srch). rewrite existsb_find.
  destruct (find (matches srch) (located [] e)) as [[p t]|]; reflexivity.
Qed.

(** X15.  An assignment uses [e] exactly when [e] equals a subtree of the
    right side or, the left side being m[addr], a subtree of addr; a left
    side that is no memory dereference is never searched. *)
Theorem usesExp_spec (lhs rhs addr e : Exp T R) :
  (isMemOf lhs = false ->
   usesExp lhs rhs e = Ok (existsb (equals e) (preorder rhs)))
  /\ usesExp (Unary opMemOf addr) rhs e
     = Ok (existsb (equals e) (preorder rhs)
           || existsb (equals e) (preorder addr)).
Proof.
  unfold usesExp. rewrite !search_fst. split.
  - intros ->. destruct (existsb (equals e) (preorder rhs)); reflexivity.
  - cbn. rewrite search_fst.
    destruct (existsb (equals e) (preorder rhs)); reflexivity.
Qed.

(** X16.  [fixSuccessor] of succ(r[x]) with [x] no integer constant fails
    its assert. *)
Theorem fixSuccessor_not_constant (x : Exp T R) :
  (getOper x =? opIntConst) = false ->
  fixSuccessor (Unary opSuccessor (Unary opRegOf x)) = Abort.
Proof.
  intros H. unfold fixSuccessor. rewrite search_find.
  cbn. rewrite H. reflexivity.
Qed.

End MoreFacts.

(** ** Further properties: arithmetic normalization *)

Section ArithFacts.
Context {T R : Type} {TO : TypeOps T}.
Implicit Types (x o e t : Exp T R).
Import Int32.

Lemma isTerm_tests t :
  isTerm t = true ->
  (getOper t =? opPlus) = false /\ (getOper t =? opMinus) = false
  /\ (getOper t =? opTypedExp) = false /\ (getOper t =? opAssignExp) = false
  /\ (getOper t =? opIntConst) = false.
Proof.
  unfold isTerm. intros H. apply negb_true_iff in H.
  repeat (apply orb_false_elim in H; destruct H as [H ?]). tauto.
Qed.

Lemma partitionTerms_term t negate acc :
  isTerm t = true -> partitionTerms t negate acc = Ok (push t negate acc).
Proof.
  intros H. destruct (isTerm_tests t H) as (H1 & H2 & H3 & H4 & H5).
  destruct t; cbn [partitionTerms]; cbn [getOper] in *;
    rewrite ?H1, ?H2, ?H3, ?H4, ?H5; unfold push;
    try (destruct negate; reflexivity); cbn in *; congruence.
Qed.

Lemma terms_only_push t negate acc :
  isTerm t = true -> terms_only acc -> terms_only (push t negate acc).
Proof.
  intros Ht [Hp Hn]. unfold push. destruct negate; split; cbn;
    try assumption; apply Forall_app; split; try assumption;
    repeat constructor; exact Ht.
Qed.

(** X17.  [partitionTerms] only ever adds terms to positives and
    negatives: never a sum, a difference, a typed or assignment wrapper or
    an integer constant. *)
Theorem partitionTerms_terms_only e : forall negate acc part,
  partitionTerms e negate acc = Ok part -> terms_only acc -> terms_only part.
Proof.
  induction e; intros negate acc part H Hacc;
    cbn [partitionTerms getOper] in H;
    repeat match type of H with
    | context [if ?c =? ?d then _ else _] => destruct (c =? d) eqn:?
    end;
    try discriminate;
    try match type of H with
    | bind (partitionTerms ?a ?n ?acc0) _ = _ =>
        let E := fresh "E" in
        destruct (partitionTerms a n acc0) as [acc'| | |] eqn:E;
        try discriminate; cbn [bind] in H
    end;
    try solve [ eauto ].
  all: try (destruct u; try discriminate).
  all: try (destruct negate; injection H as <-; exact Hacc).
  all: match type of H with
       | (if ?n then Ok (mkPartition (positives ?a) (_ ++ [?t]) _) else _)
         = Ok _ =>
           destruct n; injection H as <-;
           [apply (terms_only_push t true a) | apply (terms_only_push t false a)]
       end; try exact Hacc;
       unfold isTerm; cbn [getOper];
       repeat match goal with
       | E : (_ =? _) = false |- _ => rewrite E; clear E
       end; reflexivity.
Qed.

Lemma isTerm_clone t : isTerm (clone t) = isTerm t.
Proof. unfold isTerm. rewrite getOper_clone. reflexivity. Qed.

(** X18.  Partitioning the sum that [Accumulate] builds from a non-empty
    list of terms gives back the clones of those terms, in order, on the
    list that negate selects. *)
Theorem partitionTerms_Accumulate (l : list (Exp T R)) negate acc :
  l <> [] -> Forall (fun t => isTerm t = true) l ->
  partitionTerms (Accumulate l) negate acc
  = Ok (pushAll (map clone l) negate acc).
Proof.
  revert acc. induction l as [|e l IH]; intros acc Hne Hall; [congruence|].
  inversion Hall as [|? ? He Hl]; subst.
  destruct l as [|e' l].
  - cbn [Accumulate map]. rewrite partitionTerms_term by (rewrite isTerm_clone; exact He).
    unfold push, pushAll. reflexivity.
  - change (Accumulate (e :: e' :: l))
      with (Binary opPlus (clone e) (Accumulate (e' :: l))).
    cbn [partitionTerms getOper]. change (opPlus =? opPlus) with true. cbv iota.
    rewrite partitionTerms_term by (rewrite isTerm_clone; exact He).
    cbn [bind]. rewrite IH by (congruence || assumption).
    unfold push, pushAll. destruct negate; cbn; rewrite <- app_assoc; reflexivity.
Qed.

(* arithmetic modulo 2^32 *)

Lemma wrap_cong a b : a mod 2 ^ 32 = b mod 2 ^ 32 -> wrap a = wrap b.
Proof.
  intros H. unfold wrap. rewrite (Zplus_mod a), H, <- Zplus_mod. reflexivity.
Qed.

Lemma wrap_mod a : wrap a mod 2 ^ 32 = a mod 2 ^ 32.
Proof.
  unfold wrap. rewrite Zminus_mod_idemp_l. f_equal. lia.
Qed.

Lemma wrap_wrap a : wrap (wrap a) = wrap a.
Proof. apply wrap_cong, wrap_mod. Qed.

Lemma wrap_add_l a b : wrap (wrap a + b) = wrap (a + b).
Proof.
  apply wrap_cong. rewrite Zplus_mod, wrap_mod, <- Zplus_mod. reflexivity.
Qed.

Lemma wrap_add_r a b : wrap (a + wrap b) = wrap (a + b).
Proof. rewrite Z.add_comm, wrap_add_l, Z.add_comm. reflexivity. Qed.

Lemma total_app l1 l2 : total (l1 ++ l2) = total l1 + total l2.
Proof. induction l1; simpl; lia. Qed.

(* std::accumulate over ints, from a start that is an int *)
Lemma accumulate_wrap (l : list Z) : forall z,
  fold_left (fun a k => wrap (a + k)) l (wrap z) = wrap (z + total l).
Proof.
  induction l as [|k l IH]; intros z; simpl.
  - f_equal. lia.
  - rewrite wrap_add_l, IH. f_equal. lia.
Qed.

Lemma partitionTerms_sumOfInts e : forall negate acc,
  sumOfInts e = true ->
  exists l,
    partitionTerms e negate acc
    = Ok (mkPartition (positives acc) (negatives acc) (integers acc ++ l))
    /\ wrap (total l) = wrap (if negate then - valueOf e else valueOf e).
Proof.
  induction e; intros negate acc H; cbn [sumOfInts] in H; try discriminate.
  - destruct u; try discriminate. cbn [partitionTerms getOper constOp valueOf].
    change (opIntConst =? opPlus) with false.
    change (opIntConst =? opMinus) with false.
    change (opIntConst =? opTypedExp) with false.
    change (opIntConst =? opAssignExp) with false.
    change (opIntConst =? opIntConst) with true. cbv iota.
    destruct negate; eexists; (split; [reflexivity|]); cbn [total fold_right].
    + unfold neg. rewrite Z.add_0_r. apply wrap_wrap.
    + f_equal. lia.
  - apply andb_prop in H. destruct H as [H H2]. apply andb_prop in H.
    destruct H as [Hop H1].
    cbn [partitionTerms getOper valueOf].
    destruct (op =? opPlus) eqn:Hplus.
    + destruct (IHe1 negate acc H1) as (l1 & -> & Hl1). cbn [bind].
      destruct (IHe2 negate
                  (mkPartition (positives acc) (negatives acc) (integers acc ++ l1)) H2)
        as (l2 & -> & Hl2).
      exists (l1 ++ l2). cbn. rewrite <- app_assoc. split; [reflexivity|].
      rewrite total_app, <- wrap_add_l, Hl1, wrap_add_l,
        <- wrap_add_r, Hl2, wrap_add_r.
      f_equal. destruct negate; lia.
    + cbn in Hop. rewrite Hop.
      destruct (IHe1 negate acc H1) as (l1 & -> & Hl1). cbn [bind].
      destruct (IHe2 (negb negate)
                  (mkPartition (positives acc) (negatives acc) (integers acc ++ l1)) H2)
        as (l2 & -> & Hl2).
      exists (l1 ++ l2). cbn. rewrite <- app_assoc. split; [reflexivity|].
      rewrite total_app, <- wrap_add_l, Hl1, wrap_add_l,
        <- wrap_add_r, Hl2, wrap_add_r.
      f_equal. destruct negate; cbn; lia.
Qed.

(** X19.  [simplifyArith] folds a tree of + and - over integer constants
    to the constant that holds its value as a 32-bit int. *)
Theorem simplifyArith_sumOfInts (op : OPER) (a b : Exp T R) :
  sumOfInts (Binary op a b) = true ->
  simplifyArith (Binary op a b)
  = Ok (Const (CInt (wrap (valueOf (Binary op a b))))).
Proof.
  intros H. pose proof H as H'. cbn [sumOfInts] in H'.
  apply andb_prop in H'. destruct H' as [H' _]. apply andb_prop in H'.
  destruct H' as [Hop _].
  cbn [simplifyArith].
  replace (negb (op =? opPlus) && negb (op =? opMinus)) with false
    by (destruct (op =? opPlus), (op =? opMinus); simpl in *; congruence).
  unfold simplifyArith_sum.
  destruct (partitionTerms_sumOfInts (Binary op a b) false empty_partition H)
    as (l & -> & Hl).
  cbn. change 0 with (wrap 0) at 1. rewrite accumulate_wrap.
  rewrite Z.add_0_l, Hl. reflexivity.
Qed.

(** X20.  [simplifyArith] reduces (x + a) - (x + b) to the constant a - b
    (as a 32-bit int) for every term x that equals itself. *)
Theorem simplifyArith_cancels (x : Exp T R) (a b : Z) :
  isTerm x = true -> equals x x = true ->
  simplifyArith (Binary opMinus (Binary opPlus x (Const (CInt a)))
                                (Binary opPlus x (Const (CInt b))))
  = Ok (Const (CInt (wrap (a - b)))).
Proof.
  intros Hx Hxx. cbn [simplifyArith]. 
  change (negb (opMinus =? opPlus) && negb (opMinus =? opMinus)) with false.
  cbv iota. unfold simplifyArith_sum.
  cbn [partitionTerms getOper constOp].
  change (opMinus =? opPlus) with false. change (opMinus =? opMinus) with true.
  change (opPlus =? opPlus) with true. cbv iota.
  rewrite partitionTerms_term by exact Hx. cbn [bind].
  change (opIntConst =? opPlus) with false.
  change (opIntConst =? opMinus) with false.
  change (opIntConst =? opTypedExp) with false.
  change (opIntConst =? opAssignExp) with false.
  change (opIntConst =? opIntConst) with true. cbv iota. cbn [bind].
  rewrite partitionTerms_term by exact Hx. cbn [bind negb].
  cbn [push empty_partition positives negatives integers app cancel scan].
  rewrite Hxx. cbn [cancel app fold_left].
  f_equal. f_equal. f_equal. unfold neg.
  rewrite Z.add_0_l, wrap_add_l, wrap_add_r. reflexivity.
Qed.

End ArithFacts.

(** ** Further properties: the peephole pass *)

Section PeepholeFacts.
Context {T R : Type} {TO : TypeOps T}.
Import Int32.

(** X21.  One pass rewrites x + 0, x | 0, x * 1 and x & -1 to x, and
    x * 0 and x & 0 to 0, and reports the change, for every x that the pass
    itself leaves alone and that is no integer constant. *)
Theorem polySimplify_identities (f : nat) (x : Exp T R) :
  polySimplify f x false = Ok (x, false) ->
  (getOper x =? opIntConst) = false ->
  polySimplify (S f) (Binary opPlus x (Const (CInt 0))) false = Ok (x, true)
  /\ polySimplify (S f) (Binary opBitOr x (Const (CInt 0))) false = Ok (x, true)
  /\ polySimplify (S f) (Binary opMult x (Const (CInt 1))) false = Ok (x, true)
  /\ polySimplify (S f) (Binary opBitAnd x (Const (CInt (-1)))) false = Ok (x, true)
  /\ polySimplify (S f) (Binary opMult x (Const (CInt 0))) false
     = Ok (Const (CInt 0), true)
  /\ polySimplify (S f) (Binary opBitAnd x (Const (CInt 0))) false
     = Ok (Const (CInt 0), true).
Proof.
  intros Hx Hop. destruct f as [|f]; [discriminate|].
  repeat split.
  - pass_on x. reflexivity.
  - pass_on x. reflexivity.
  - pass_on x. reflexivity.
  - pass_on x. reflexivity.
  - pass_on x. reflexivity.
  - pass_on x. reflexivity.
Qed.

(** X22.  Constant folding does not guard the divisor: a pass over k / 0
    or k % 0, signed or unsigned, divides by zero. *)
Theorem polySimplify_zero_divisor (n : nat) (k : Z) :
  polySimplify (2 + n) (Binary opDiv (Const (CInt k)) (Const (CInt 0)) : Exp T R) false
  = Undefined
  /\ polySimplify (2 + n) (Binary opDivs (Const (CInt k)) (Const (CInt 0)) : Exp T R) false
     = Undefined
  /\ polySimplify (2 + n) (Binary opMod (Const (CInt k)) (Const (CInt 0)) : Exp T R) false
     = Undefined
  /\ polySimplify (2 + n) (Binary opMods (Const (CInt k)) (Const (CInt 0)) : Exp T R) false
     = Undefined.
Proof.
  rewrite polySimplify_Div, polySimplify_Divs, polySimplify_Mod, polySimplify_Mods.
  repeat split.
Qed.

End PeepholeFacts.

(** ** Further properties: the stream *)

Section StreamFacts.
Context {T R : Type} {TO : TypeOps T} {RO : RTLOps R} {U : Util}
        {UL : UtilLaws U} {TL : TypeLaws TO} {RL : RTLLaws RO}.

(** X23.  A Unary record whose child is complete but which is followed by
    a marker other than FID_EXP_END fails the assert of [deserialize]. *)
Theorem deserialize_missing_end (x : Exp T R) (op fid : Z)
    (fuel : nat) (rest rest' : stream) (log : list warning) :
  storable x = true -> Int32.in_range op = true -> (depth x < fuel)%nat ->
  loadFID rest = Some (fid, rest') -> fid <> FID_EXP_END ->
  deserialize (S fuel)
    (saveChar (chr "U") ++ saveInt op ++ serialize x ++ rest) log
  = Abort.
Proof.
  intros Hx Hop Hf Hfid Hne. cbn [deserialize].
  rewrite load_tag. cbn [bind]. rewrite load_int by exact Hop. cbn [bind].
  decide_tags. rewrite deserialize_serialize by assumption. cbn [bind node1].
  unfold endCheck, load. rewrite Hfid. cbn [of_option bind].
  destruct (Z.eqb_spec fid FID_EXP_END); [contradiction | reflexivity].
Qed.

(** X24.  The format is self-delimiting: if the bytes of [x] followed by
    [r1] are the bytes of [y] followed by [r2], then [x] is [y] and [r1]
    is [r2]. *)
Theorem serialize_prefix_free (x y : Exp T R) (r1 r2 : stream) :
  storable x = true -> storable y = true ->
  serialize x ++ r1 = serialize y ++ r2 -> x = y /\ r1 = r2.
Proof.
  intros Hx Hy H.
  pose proof (deserialize_serialize x Hx (S (Nat.max (depth x) (depth y))) r1 []
                ltac:(lia)) as Dx.
  pose proof (deserialize_serialize y Hy (S (Nat.max (depth x) (depth y))) r2 []
                ltac:(lia)) as Dy.
  rewrite H in Dx. rewrite Dx in Dy. injection Dy as -> ->. split; reflexivity.
Qed.

End StreamFacts.

Section StreamFacts2.
Context {T R : Type} {TO : TypeOps T} {RO : RTLOps R} {U : Util}.

(** X25.  When the child record of a Unary record is malformed, the
    Unary node is built over the null child and the end-of-node check is
    made where the child call stopped; whatever is returned is that node,
    never null and never a complete tree. *)
Theorem deserialize_null_child (fuel : nat) (inf inf1 inf2 inf3 : stream)
    (op : Z) (log log3 : list warning) :
  loadChar inf = Some (chr "U", inf1) ->
  loadInt inf1 = Some (op, inf2) ->
  deserialize fuel inf2 log = Ok (Null, inf3, log3) ->
  deserialize (S fuel) inf log = @endCheck T R U Holed inf3 log3
  /\ forall r i l, deserialize (S fuel) inf log = Ok (r, i, l) -> r = @Holed T R.
Proof.
  intros Hc Hi Hd.
  assert (E : deserialize (S fuel) inf log = @endCheck T R U Holed inf3 log3).
  { cbn [deserialize]. unfold load at 1 2. rewrite Hc. cbn [of_option bind].
    rewrite Hi. cbn [of_option bind]. decide_tags. rewrite Hd. reflexivity. }
  split; [exact E|].
  intros r i l. rewrite E. unfold endCheck, load.
  destruct (loadFID inf3) as [[fid i1]|]; cbn; [|discriminate].
  destruct (negb (fid =? FID_EXP_END)); [discriminate|].
  destruct (loadLen i1) as [[len i2]|]; cbn; [|discriminate].
  destruct (negb (len =? 0)); [discriminate|].
  intros H. injection H as <- _ _. reflexivity.
Qed.

End StreamFacts2.

(** ** The further properties on literal trees *)

Module LiteralExtra.
Import Sample Trees.

Lemma clone_equals_witness :
  noNaN flagDef = true
  /\ (equals (clone flagDef) flagDef = true /\ equals flagDef (clone flagDef) = true).
Proof.
  split; [reflexivity|]. apply (clone_equals SampleFacts.typeLaws). reflexivity.
Defined.

Lemma less_by_op_witness :
  getOper (Reg 1) < getOper (IntConst 5)
  /\ (less (Reg 1) (IntConst 5) = true /\ less (IntConst 5) (Reg 1) = false).
Proof. split; [reflexivity|]. apply less_by_op. reflexivity. Defined.

Lemma less_irrefl_witness :
  (forall t : ty, type_lt t t = false) /\ less typedAssign typedAssign = false.
Proof.
  assert (H : forall t : ty, type_lt t t = false) by (intros []; reflexivity).
  split; [exact H|]. apply (less_irrefl H).
Defined.

Lemma searchReplace_no_match_witness :
  existsb (equals (Reg 9)) (preorder mixedSum) = false
  /\ searchReplaceAll (Reg 9) (IntConst 0) false mixedSum = Ok (mixedSum, false).
Proof. split; [reflexivity|]. apply searchReplace_no_match. reflexivity. Defined.

Lemma searchReplace_root_witness :
  equals (Unary opRegOf (Terminal opWild)) (Reg 3) = true
  /\ searchReplace (Unary opRegOf (Terminal opWild)) (IntConst 7) (Reg 3)
     = Ok (IntConst 7, true).
Proof.
  split; [reflexivity|].
  exact (searchReplace_root (Unary opRegOf (Terminal opWild)) (IntConst 7)
           (Reg 3) eq_refl).
Defined.

Lemma searchReplaceAll_nested_root_witness :
  equals (Terminal opWild) (Reg 3) = true
  /\ existsb (equals (Terminal opWild)) (tl (preorder (Reg 3))) = true
  /\ searchReplaceAll (Terminal opWild) (IntConst 7) false (Reg 3) = Undefined.
Proof.
  split; [reflexivity|]. split; [reflexivity|].
  apply searchReplaceAll_nested_root; reflexivity.
Defined.

Lemma simplifyAddr_no_AddrOf_witness :
  opFree [opAddrOf] memAt4 = true /\ simplifyAddr memAt4 = Ok memAt4.
Proof. split; [reflexivity|]. apply simplifyAddr_no_AddrOf. reflexivity. Defined.

Lemma simplifyAddr_size_witness :
  simplifyAddr addrOfMem = Ok (Reg 1)
  /\ (size_of (Reg 1) <= size_of addrOfMem)%nat.
Proof. split; [reflexivity|]. apply simplifyAddr_size. reflexivity. Defined.

Lemma killFill_no_fill_witness :
  opFree fills mixedSum = true /\ killFill mixedSum = Ok mixedSum.
Proof. split; [reflexivity|]. apply killFill_no_fill. reflexivity. Defined.

Lemma killFill_root_witness :
  opFree fills (IntConst 8) = true /\ opFree fills (IntConst 32) = true
  /\ opFree fills (Reg 1) = true
  /\ (killFill zfillReg = Ok (Reg 1)
      /\ killFill (Ternary opSgnEx (IntConst 8) (IntConst 32) (Reg 1)) = Ok (Reg 1)).
Proof.
  split; [reflexivity|]. split; [reflexivity|]. split; [reflexivity|].
  apply (killFill_root (IntConst 8) (IntConst 32) (Reg 1)); reflexivity.
Defined.

Lemma killFill_SgnEx_over_Zfill_witness :
  opFree fills (IntConst 16) = true /\ opFree fills (IntConst 32) = true
  /\ opFree fills (IntConst 8) = true /\ opFree fills (Reg 1) = true
  /\ killFill sgnexOverZfill = Ok (Reg 1).
Proof.
  split; [reflexivity|]. split; [reflexivity|]. split; [reflexivity|].
  split; [reflexivity|].
  apply (killFill_SgnEx_over_Zfill (IntConst 16) (IntConst 32) (IntConst 8)
           (IntConst 32) (Reg 1)); reflexivity.
Defined.

Lemma killFill_Zfill_over_fill_witness :
  (opSgnEx = opZfill \/ opSgnEx = opSgnEx)
  /\ killFill zfillOverSgnex = Undefined.
Proof.
  split; [right; reflexivity|].
  apply (killFill_Zfill_over_fill (IntConst 16) (IntConst 32) (IntConst 8)
           (IntConst 16) (Reg 1) opSgnEx).
  right; reflexivity.
Defined.

Lemma usesExp_spec_witness :
  isMemOf (Reg 1) = false
  /\ usesExp (Reg 1) (Reg 2) (Reg 1) = Ok false
  /\ usesExp (Unary opMemOf (Reg 1)) (Reg 2) (Reg 1) = Ok true.
Proof.
  split; [reflexivity|]. split.
  - exact (proj1 (usesExp_spec (Reg 1) (Reg 2) (Reg 1) (Reg 1)) eq_refl).
  - exact (proj2 (usesExp_spec (Reg 1) (Reg 2) (Reg 1) (Reg 1))).
Defined.

Lemma fixSuccessor_not_constant_witness :
  (getOper (Reg 2) =? opIntConst) = false
  /\ fixSuccessor (Unary opSuccessor (Unary opRegOf (Reg 2))) = Abort.
Proof. split; [reflexivity|]. apply fixSuccessor_not_constant. reflexivity. Defined.

Lemma partitionTerms_terms_only_witness :
  partitionTerms mixedSum false empty_partition
  = Ok (mkPartition [Reg 1] [Reg 2] [3])
  /\ terms_only (@empty_partition ty rtl)
  /\ terms_only (mkPartition [Reg 1] [Reg 2] [3]).
Proof.
  assert (H : terms_only (@empty_partition ty rtl)) by (split; constructor).
  split; [reflexivity|]. split; [exact H|].
  exact (partitionTerms_terms_only mixedSum false empty_partition _ eq_refl H).
Defined.

Lemma partitionTerms_Accumulate_witness :
  [Reg 1; Reg 2] <> []
  /\ Forall (fun t : exp => isTerm t = true) [Reg 1; Reg 2]
  /\ partitionTerms (Accumulate [Reg 1; Reg 2]) true empty_partition
     = Ok (mkPartition [] [Reg 1; Reg 2] []).
Proof.
  assert (H1 : [Reg 1; Reg 2] <> []) by discriminate.
  assert (H2 : Forall (fun t : exp => isTerm t = true) [Reg 1; Reg 2])
    by (repeat constructor).
  split; [exact H1|]. split; [exact H2|].
  exact (partitionTerms_Accumulate [Reg 1; Reg 2] true empty_partition H1 H2).
Defined.

Lemma simplifyArith_sumOfInts_witness :
  sumOfInts intSum = true /\ simplifyArith intSum = Ok (IntConst (-3)).
Proof.
  split; [reflexivity|].
  exact (simplifyArith_sumOfInts opMinus (Binary opPlus (IntConst 3) (IntConst 4))
           (IntConst 10) eq_refl).
Defined.

Lemma simplifyArith_cancels_witness :
  isTerm (Reg 28) = true /\ equals (Reg 28) (Reg 28) = true
  /\ simplifyArith (Binary opMinus (Binary opPlus (Reg 28) (IntConst 100))
                                   (Binary opPlus (Reg 28) (IntConst 92)))
     = Ok (IntConst 8).
Proof.
  split; [reflexivity|]. split; [reflexivity|].
  exact (simplifyArith_cancels (Reg 28) 100 92 eq_refl eq_refl).
Defined.

Lemma polySimplify_identities_witness :
  polySimplify 2 (Reg 1) false = Ok (Reg 1, false)
  /\ (getOper (Reg 1) =? opIntConst) = false
  /\ polySimplify 3 (Binary opPlus (Reg 1) (IntConst 0)) false = Ok (Reg 1, true)
  /\ polySimplify 3 (Binary opMult (Reg 1) (IntConst 0)) false
     = Ok (IntConst 0, true).
Proof.
  split; [reflexivity|]. split; [reflexivity|].
  destruct (polySimplify_identities 2 (Reg 1) eq_refl eq_refl)
    as (H1 & _ & _ & _ & H5 & _).
  split; [exact H1 | exact H5].
Defined.

Lemma deserialize_missing_end_witness :
  storable (IntConst 5) = true /\ Int32.in_range opNeg = true
  /\ (depth (IntConst 5) < 1)%nat
  /\ loadFID badMarker = Some (0, [9]) /\ 0 <> FID_EXP_END
  /\ deserialize 2
       (saveChar (chr "U") ++ saveInt opNeg ++ serialize (IntConst 5) ++ badMarker)
       []
     = Abort.
Proof.
  assert (H : 0 <> FID_EXP_END) by discriminate.
  split; [reflexivity|]. split; [reflexivity|]. split; [simpl; lia|].
  split; [reflexivity|]. split; [exact H|].
  apply (deserialize_missing_end (UL := SampleFacts.utilLaws)
           (TL := SampleFacts.typeLaws) (RL := SampleFacts.rtlLaws)
           (IntConst 5) opNeg 0 1 badMarker [9] []);
    [reflexivity | reflexivity | simpl; lia | reflexivity | exact H].
Defined.

Lemma serialize_prefix_free_witness :
  storable zfillReg = true
  /\ serialize zfillReg ++ badMarker = serialize zfillReg ++ badMarker
  /\ (zfillReg = zfillReg /\ badMarker = badMarker).
Proof.
  split; [reflexivity|]. split; [reflexivity|].
  apply (serialize_prefix_free (UL := SampleFacts.utilLaws)
           (TL := SampleFacts.typeLaws) (RL := SampleFacts.rtlLaws));
    reflexivity.
Defined.

Lemma deserialize_null_child_witness :
  loadChar badChild = Some (chr "U", [12; 0; 0; 0; 120; 0; 0; 0; 0; 7; 7])
  /\ loadInt [12; 0; 0; 0; 120; 0; 0; 0; 0; 7; 7]
     = Some (12, [120; 0; 0; 0; 0; 7; 7])
  /\ @deserialize ty rtl _ _ _ 1 [120; 0; 0; 0; 0; 7; 7] []
     = Ok (Null, [7; 7], [UnknownExpType])
  /\ @deserialize ty rtl _ _ _ 2 badChild [] = Abort.
Proof.
  assert (Hc : loadChar badChild
               = Some (chr "U", [12; 0; 0; 0; 120; 0; 0; 0; 0; 7; 7]))
    by reflexivity.
  assert (Hi : loadInt [12; 0; 0; 0; 120; 0; 0; 0; 0; 7; 7]
               = Some (12, [120; 0; 0; 0; 0; 7; 7])) by reflexivity.
  assert (Hd : @deserialize ty rtl _ _ _ 1 [120; 0; 0; 0; 0; 7; 7] []
               = Ok (Null, [7; 7], [UnknownExpType])) by reflexivity.
  split; [exact Hc|]. split; [exact Hi|]. split; [exact Hd|].
  rewrite (proj1 (deserialize_null_child 1 badChild _ _ _ 12 [] _ Hc Hi Hd)).
  reflexivity.
Defined.

End LiteralExtra.
